(** * GlossaryBotApp: a shallow embedding of the glossary bot

    The development follows [src/GlossaryBotApp.ts].  JavaScript strings are
    sequences of UTF-16 code units.  The persistence, the message creator and
    the user reader of the Rocket.Chat host are modelled by an explicit world
    that every [async] method threads through; a schedule in the world says
    which of the coming host calls raise, so that [try]/[catch] is run on
    every pattern of faults.  [toLowerCase] and the [Date] conversions belong
    to the JavaScript runtime and are parameters.  Calls of the logger change
    nothing of what is stated here and are left out. *)

From Stdlib Require Import NArith ZArith String Ascii List Bool Lia.
From stdpp Require Import gmap list.
Import ListNotations.

(** ** JavaScript strings *)

(** A string is the list of its UTF-16 code units. *)
Abbreviation char := N (only parsing).
Abbreviation jsstring := (list N) (only parsing).

Module JSString.

Definition bytesOf (s : string) : list N :=
  map N_of_ascii (list_ascii_of_string s).

(** Source text is UTF-8; [utf16] turns the bytes of a literal into code
    units (code points above the BMP become a surrogate pair). *)
Fixpoint utf16 (bs : list N) : jsstring :=
  match bs with
  | [] => []
  | b0 :: r0 =>
    if (b0 <? 128)%N then b0 :: utf16 r0
    else if (b0 <? 224)%N then
      match r0 with
      | b1 :: r1 => ((b0 mod 32) * 64 + b1 mod 64)%N :: utf16 r1
      | _ => [65533%N]
      end
    else if (b0 <? 240)%N then
      match r0 with
      | b1 :: b2 :: r2 =>
        ((b0 mod 16) * 4096 + (b1 mod 64) * 64 + b2 mod 64)%N :: utf16 r2
      | _ => [65533%N]
      end
    else
      match r0 with
      | b1 :: b2 :: b3 :: r3 =>
        let cp := ((b0 mod 8) * 262144 + (b1 mod 64) * 4096
                   + (b2 mod 64) * 64 + b3 mod 64)%N in
        (55296 + (cp - 65536) / 1024)%N
          :: (56320 + (cp - 65536) mod 1024)%N :: utf16 r3
      | _ => [65533%N]
      end
  end.

(** [lit "text"] is the JavaScript string literal ['text']. *)
Definition lit (s : string) : jsstring := utf16 (bytesOf s).

(** The two characters a Rocq literal cannot hold as they are. *)
Definition dq : jsstring := [34%N].
Definition nl : jsstring := [10%N].

Definition eqb (a b : jsstring) : bool := bool_decide (a = b).

(** ECMAScript WhiteSpace and LineTerminator: what [trim] strips and what
    the regular expression [\s] matches. *)
Definition isWhiteSpace (c : char) : bool :=
  ((9 <=? c) && (c <=? 13) || (c =? 32) || (c =? 160) || (c =? 5760)
   || (8192 <=? c) && (c <=? 8202) || (c =? 8232) || (c =? 8233)
   || (c =? 8239) || (c =? 8287) || (c =? 12288) || (c =? 65279))%N.

Fixpoint trimStart (s : jsstring) : jsstring :=
  match s with
  | c :: s' => if isWhiteSpace c then trimStart s' else s
  | [] => []
  end.

Definition trimEnd (s : jsstring) : jsstring :=
  fold_right
    (fun c acc =>
       match acc with
       | [] => if isWhiteSpace c then [] else [c]
       | _ :: _ => c :: acc
       end) [] s.

Definition trim (s : jsstring) : jsstring := trimEnd (trimStart s).

Fixpoint startsWith (s prefix : jsstring) {struct prefix} : bool :=
  match prefix, s with
  | [], _ => true
  | p :: prefix', c :: s' => (c =? p)%N && startsWith s' prefix'
  | _ :: _, [] => false
  end.

Definition endsWith (s suffix : jsstring) : bool :=
  startsWith (rev s) (rev suffix).

(** [indexOf] of a single code unit; -1 when it does not occur. *)
Fixpoint indexOf (s : jsstring) (c : char) : Z :=
  match s with
  | [] => (-1)%Z
  | x :: s' =>
    if (x =? c)%N then 0%Z
    else let i := indexOf s' c in if (i <? 0)%Z then (-1)%Z else (i + 1)%Z
  end.

Definition clamp (len : nat) (i : Z) : nat :=
  Nat.min (Z.to_nat i) len.

(** [s.substring(start, end)]; [None] stands for an omitted [end]. *)
Definition substring (s : jsstring) (start : Z) (end_ : option Z) : jsstring :=
  let len := length s in
  let a := clamp len start in
  let b := match end_ with Some e => clamp len e | None => len end in
  take (Nat.max a b - Nat.min a b) (drop (Nat.min a b) s).

(** [s.slice(start, end)]: negative indices count from the end. *)
Definition slice (s : jsstring) (start end_ : Z) : jsstring :=
  let len := length s in
  let rel i := if (i <? 0)%Z then Z.to_nat (Z.of_nat len + i)
               else Nat.min (Z.to_nat i) len in
  let a := rel start in
  let b := rel end_ in
  take (b - a) (drop a s).

(** [s.charAt(i)]: the empty string outside the string. *)
Definition charAt (s : jsstring) (i : nat) : jsstring :=
  match s !! i with
  | Some c => [c]
  | None => []
  end.

(** [/\s/.test(s)] *)
Definition testWhiteSpace (s : jsstring) : bool := existsb isWhiteSpace s.

(** [s.split(sep)] for a one-unit separator. *)
Fixpoint split (sep : char) (s : jsstring) : list jsstring :=
  match s with
  | [] => [[]]
  | c :: s' =>
    match split sep s' with
    | piece :: pieces =>
      if (c =? sep)%N then [] :: piece :: pieces else (c :: piece) :: pieces
    | [] => []
    end
  end.

Fixpoint join (sep : jsstring) (parts : list jsstring) : jsstring :=
  match parts with
  | [] => []
  | [p] => p
  | p :: parts' => p ++ sep ++ join sep parts'
  end.

(** Template interpolation of a number: its decimal digits. *)
Fixpoint uintUnits (d : Decimal.uint) : jsstring :=
  match d with
  | Decimal.Nil => []
  | Decimal.D0 d' => 48%N :: uintUnits d'
  | Decimal.D1 d' => 49%N :: uintUnits d'
  | Decimal.D2 d' => 50%N :: uintUnits d'
  | Decimal.D3 d' => 51%N :: uintUnits d'
  | Decimal.D4 d' => 52%N :: uintUnits d'
  | Decimal.D5 d' => 53%N :: uintUnits d'
  | Decimal.D6 d' => 54%N :: uintUnits d'
  | Decimal.D7 d' => 55%N :: uintUnits d'
  | Decimal.D8 d' => 56%N :: uintUnits d'
  | Decimal.D9 d' => 57%N :: uintUnits d'
  end.

Definition digitsOf (n : nat) : jsstring := uintUnits (Nat.to_uint n).

(** [haystack.includes(needle)] *)
Fixpoint includes (haystack needle : jsstring) : bool :=
  startsWith haystack needle
  || match haystack with
     | [] => false
     | _ :: rest => includes rest needle
     end.

End JSString.
Import JSString.


(** ** Data model *)

Record KeyValuePair := mkPair { pair_key : jsstring; pair_value : jsstring }.

Record GlossaryValue := mkValue {
  value : jsstring;
  createdAt : jsstring;
  createdBy : jsstring
}.

Record GlossaryEntry := mkEntry { values : list GlossaryValue }.

Inductive Reason := duplicate | error.

Record AddValueResult := mkResult { added : bool; reason : option Reason }.

Inductive CommandType := ADD | MULTI_ADD | REMOVE | DETAILS | HELP.

(** The parts of the host's [IUser], [IRoom] and [IMessage] the app reads. *)
Record IUserEmail := mkEmail { address : jsstring; verified : bool }.

Record IUser := mkUser {
  user_id : jsstring;
  emails : option (list IUserEmail);
  username : jsstring;
  name : jsstring
}.

Record IRoom := mkRoom { room_id : jsstring; room_type : jsstring }.

Record IMessage := mkMessage {
  msg_id : jsstring;
  room : IRoom;
  sender : IUser;
  text : option jsstring
}.

(** ** The host *)

(** What the JavaScript runtime supplies and the app only calls: Unicode
    lower-casing, and the [Date] conversions on time values (milliseconds
    since the epoch; [dateParse] is [None] where [getTime()] is [NaN]). *)
Class Runtime := {
  toLowerCase : jsstring -> jsstring;
  toISOString : Z -> jsstring;
  dateParse : jsstring -> option Z;
  toLocaleString : Z -> jsstring
}.

Definition Error := jsstring.

(** The calls into the host that can raise. *)
Inductive HostCall :=
| ReadByAssociation (association : jsstring)
| RemoveByAssociation (association : jsstring)
| CreateWithAssociation (association : jsstring)
| GetAppUser
| Finish.

(** [db] maps an association id to its records, oldest first; [outbox] is
    what [finish] has delivered; [faults] gives, call by call, the error the
    next host calls raise ([None] or an exhausted schedule: the call
    succeeds; a call that raises changes nothing); [trace] lists the host
    calls made so far and how each one ended. *)
Record World := mkWorld {
  db : gmap (list N) (list GlossaryEntry);
  outbox : list (IRoom * list N);
  appUser : option IUser;
  clock : Z;
  faults : list (option Error);
  trace : list (HostCall * option Error)
}.

Definition setDb (f : gmap (list N) (list GlossaryEntry) ->
                      gmap (list N) (list GlossaryEntry)) (w : World) : World :=
  mkWorld (f (db w)) (outbox w) (appUser w) (clock w) (faults w) (trace w).

Definition deliver (r : IRoom) (t : jsstring) (w : World) : World :=
  mkWorld (db w) (outbox w ++ [(r, t)]) (appUser w) (clock w) (faults w) (trace w).

Definition called (c : HostCall) (e : option Error) (rest : list (option Error))
    (w : World) : World :=
  mkWorld (db w) (outbox w) (appUser w) (clock w) rest (trace w ++ [(c, e)]).

(** An [async] method either returns or throws, and leaves a world. *)
Inductive Outcome (A : Type) :=
| Returned (a : A)
| Thrown (e : Error).
Arguments Returned {A} a.
Arguments Thrown {A} e.

Definition Async (A : Type) : Type := World -> Outcome A * World.

Definition ret {A} (a : A) : Async A := fun w => (Returned a, w).

Definition throw {A} (e : Error) : Async A := fun w => (Thrown e, w).

Definition bind {A B} (m : Async A) (k : A -> Async B) : Async B :=
  fun w =>
    match m w with
    | (Returned a, w') => k a w'
    | (Thrown e, w') => (Thrown e, w')
    end.

Definition tryCatch {A} (body : Async A) (handler : Error -> Async A) : Async A :=
  fun w =>
    match body w with
    | (Returned a, w') => (Returned a, w')
    | (Thrown e, w') => handler e w'
    end.

Declare Scope async_scope.
Delimit Scope async_scope with async.
Bind Scope async_scope with Async.
Notation "x <- m ;; k" := (bind m (fun x => k))
  (at level 20, m at level 99, k at level 200, only parsing) : async_scope.
Notation "m ;; k" := (bind m (fun _ => k))
  (at level 100, k at level 200, only parsing, right associativity) : async_scope.
Open Scope async_scope.

Definition hostCall (c : HostCall) : Async unit :=
  fun w =>
    match faults w with
    | Some e :: rest => (Thrown e, called c (Some e) rest w)
    | None :: rest => (Returned tt, called c None rest w)
    | [] => (Returned tt, called c None [] w)
    end.

Definition readByAssociation (association : jsstring) : Async (list GlossaryEntry) :=
  hostCall (ReadByAssociation association) ;;
  fun w => (Returned (default [] (db w !! association)), w).

Definition removeByAssociation (association : jsstring) : Async unit :=
  hostCall (RemoveByAssociation association) ;;
  fun w => (Returned tt, setDb (delete association) w).

Definition createWithAssociation (data : GlossaryEntry) (association : jsstring)
    : Async unit :=
  hostCall (CreateWithAssociation association) ;;
  fun w =>
    (Returned tt,
     setDb (fun m => <[association := default [] (m !! association) ++ [data]]> m) w).

Definition getAppUser : Async (option IUser) :=
  hostCall GetAppUser ;;
  fun w => (Returned (appUser w), w).

(** [new Date().toISOString()] *)
Definition nowISO `{Runtime} : Async jsstring :=
  fun w => (Returned (toISOString (clock w)), w).

(** A string in a condition: the empty string is falsy. *)
Definition truthy (s : jsstring) : bool :=
  match s with
  | [] => false
  | _ :: _ => true
  end.

(** [a || b] on strings. *)
Definition orElse (a b : jsstring) : jsstring :=
  match a with
  | [] => b
  | _ :: _ => a
  end.

(** ** Constants of the app *)

Definition COMMAND_PREFIX : jsstring := lit "!".
Definition ROOM_TYPE_DIRECT : jsstring := lit "d".

Definition COMMANDS (c : CommandType) : jsstring :=
  match c with
  | ADD => lit "add"
  | MULTI_ADD => lit "multi-add"
  | REMOVE => lit "remove"
  | DETAILS => lit "details"
  | HELP => lit "help"
  end.

Module MESSAGES.

Definition INVALID_ADD_FORMAT : jsstring :=
  lit "❌ Неверный формат команды. Используйте: `!add <ключ>:<значение>`".

Definition INVALID_MULTI_ADD_FORMAT : jsstring :=
  lit "❌ Неверный формат команды. Используйте:" ++ nl
  ++ lit "`!multi-add" ++ nl
  ++ lit "<ключ1>:<значение1>;" ++ nl
  ++ lit "<ключ2>:<значение2>;`".

Definition INVALID_REMOVE_FORMAT : jsstring :=
  lit "❌ Неверный формат команды. Используйте:" ++ nl
  ++ lit "`!remove <ключ>` - удалить весь ключ" ++ nl
  ++ lit "`!remove <ключ>:<значение>` - удалить конкретное значение".

Definition INVALID_DETAILS_FORMAT : jsstring :=
  lit "❌ Неверный формат команды. Используйте: `!details <ключ>:<значение>`".

Definition INVALID_SEARCH_KEY : jsstring :=
  lit "❌ Ключ не должен быть пустым.".

Definition VALUE_ADDED (key value : jsstring) : jsstring :=
  lit "✅ Значение успешно добавлено для ключа " ++ dq ++ lit "*" ++ key
  ++ lit "*" ++ dq ++ lit ":" ++ nl ++ value.

Definition DUPLICATE_VALUE (key : jsstring) : jsstring :=
  lit "❌ Такое значение уже существует для ключа " ++ dq ++ lit "*" ++ key
  ++ lit "*" ++ dq ++ lit ".".

Definition SAVE_ERROR : jsstring :=
  lit "❌ Произошла ошибка при сохранении.".

Definition VALUE_REMOVED (key value : jsstring) : jsstring :=
  lit "✅ Значение " ++ dq ++ lit "*" ++ value ++ lit "*" ++ dq
  ++ lit " успешно удалено для ключа " ++ dq ++ lit "*" ++ key ++ lit "*" ++ dq.

Definition VALUE_NOT_FOUND (key value : jsstring) : jsstring :=
  lit "❌ Значение " ++ dq ++ lit "*" ++ value ++ lit "*" ++ dq
  ++ lit " не найдено для ключа " ++ dq ++ lit "*" ++ key ++ lit "*" ++ dq.

Definition KEY_REMOVED (key : jsstring) : jsstring :=
  lit "✅ Ключ " ++ dq ++ lit "*" ++ key ++ lit "*" ++ dq
  ++ lit " и все его значения успешно удалены".

Definition KEY_NOT_FOUND (key : jsstring) : jsstring :=
  lit "❌ Ключ " ++ dq ++ lit "*" ++ key ++ lit "*" ++ dq ++ lit " не найден".

Definition KEY_NOT_FOUND_SEARCH (key : jsstring) : jsstring :=
  lit "Значение для ключа " ++ dq ++ lit "*" ++ key ++ lit "*" ++ dq
  ++ lit " не найдено." ++ nl ++ nl
  ++ lit "Чтобы добавить значение, используйте команду:" ++ nl
  ++ lit "`!add " ++ key ++ lit ": <ваше значение>`".

End MESSAGES.

(** The text [handleHelpCommand] sends. *)
Definition helpText : jsstring :=
  lit "*📖 Справка по командам бота-глоссария*" ++ nl ++ nl
  ++ lit "*!add <ключ>:<значение>*" ++ nl
  ++ lit "Добавляет значение для указанного ключа." ++ nl
  ++ lit "Пример: `!add API:Application Programming Interface`" ++ nl ++ nl
  ++ lit "*!multi-add*" ++ nl
  ++ lit "Позволяет добавить несколько ключей/значений за раз." ++ nl
  ++ lit "Пример:" ++ nl ++ lit "```" ++ nl ++ lit "!multi-add" ++ nl
  ++ lit "API:Application Programming Interface;" ++ nl
  ++ lit "REST:Representational State Transfer;" ++ nl ++ lit "```" ++ nl ++ nl
  ++ lit "*!remove <ключ>*" ++ nl
  ++ lit "Удаляет весь ключ и все его значения." ++ nl
  ++ lit "Пример: `!remove API`" ++ nl ++ nl
  ++ lit "*!remove <ключ>:<значение>*" ++ nl
  ++ lit "Удаляет только одно конкретное значение для ключа." ++ nl
  ++ lit "Пример: `!remove API:Application Programming Interface`" ++ nl ++ nl
  ++ lit "*!details <ключ>:<значение>*" ++ nl
  ++ lit "Показывает дату добавления и e-mail автора значения." ++ nl
  ++ lit "Пример: `!details API:Application Programming Interface`" ++ nl ++ nl
  ++ lit "*!help*" ++ nl
  ++ lit "Показывает эту справку." ++ nl ++ nl
  ++ lit "*Поиск*" ++ nl
  ++ lit "Если отправить просто ключ (без префикса !), бот найдет и покажет все значения для этого ключа.".

(** ** Classification and formatting *)

Definition isCommand (t : jsstring) : bool :=
  let trimmed := orElse (trim t) [] in
  startsWith trimmed COMMAND_PREFIX.

Definition matchesCommand (t command : jsstring) : bool :=
  if negb (isCommand t) then false
  else
    let trimmed := trim t in
    let prefix := COMMAND_PREFIX ++ command in
    if negb (startsWith trimmed prefix) then false
    else
      let nextChar := charAt trimmed (length prefix) in
      eqb nextChar [] || testWhiteSpace nextChar.

(** [null] is [None]. *)
Definition getCommandType (t : jsstring) : option CommandType :=
  if matchesCommand t (COMMANDS ADD) then Some ADD
  else if matchesCommand t (COMMANDS MULTI_ADD) then Some MULTI_ADD
  else if matchesCommand t (COMMANDS REMOVE) then Some REMOVE
  else if matchesCommand t (COMMANDS DETAILS) then Some DETAILS
  else if matchesCommand t (COMMANDS HELP) then Some HELP
  else None.

(** [values.map((value, index) => ...)] from [index] on. *)
Fixpoint mapIndexed {A B} (f : A -> nat -> B) (index : nat) (l : list A) : list B :=
  match l with
  | [] => []
  | x :: l' => f x index :: mapIndexed f (S index) l'
  end.

Definition formatValuesForDisplay (key : jsstring) (vs : list jsstring) : jsstring :=
  match vs with
  | [v] => lit "*Ключ:* " ++ key ++ nl ++ lit "*Значение:* " ++ v
  | _ =>
    let lines :=
      join nl (mapIndexed (fun v index => digitsOf (index + 1) ++ lit ". " ++ v) 0 vs) in
    lit "*Ключ:* " ++ key ++ nl ++ lit "*Значения (" ++ digitsOf (length vs)
    ++ lit "):*" ++ nl ++ lines
  end.

(** [parseKeyValue] as [src/unnamed/part_000], an earlier revision of the
    app, has it. *)
Module Part000.

Definition parseKeyValue (t : jsstring) : option KeyValuePair :=
  let colonIndex := indexOf t 58%N in
  if (colonIndex =? -1)%Z then None
  else
    let key := trim (substring t 0 (Some colonIndex)) in
    let val := trim (substring t (colonIndex + 1) None) in
    if negb (truthy key) || negb (truthy val) then None
    else Some (mkPair key val).

End Part000.

(** ** The app *)

Section GlossaryBotApp.

Context `{Runtime}.

Definition normalizeKey (key : jsstring) : jsstring :=
  orElse (toLowerCase (trim key)) [].

Definition isValidKey (key : jsstring) : bool :=
  (0 <? length (normalizeKey key))%nat.

Definition normalizeValue (val : jsstring) : jsstring :=
  orElse (toLowerCase (trim val)) [].

Definition isValidValue (val : jsstring) : bool :=
  (0 <? length (normalizeValue val))%nat.

Definition getUserEmail (user : IUser) : jsstring :=
  let primaryEmail :=
    match emails user with
    | None => None
    | Some es =>
      match find verified es with
      | Some e => Some e
      | None => head es
      end
    end in
  orElse (match primaryEmail with Some e => address e | None => [] end)
    (orElse (username user) (orElse (name user) (lit "unknown"))).

Definition formatDate (dateIso : jsstring) : jsstring :=
  match dateIso with
  | [] => lit "неизвестно"
  | _ :: _ =>
    match dateParse dateIso with
    | None => dateIso
    | Some date => toLocaleString date
    end
  end.

Definition getAssociationForKey (key : jsstring) : jsstring :=
  normalizeKey key.

(** [null] is [None]. *)
Definition getEntryForKey (key : jsstring) : Async (option (list GlossaryValue)) :=
  if negb (isValidKey key) then ret None
  else
    tryCatch
      (records <- readByAssociation (getAssociationForKey key) ;;
       match records with
       | [] => ret None
       | entry :: _ =>
         match values entry with
         | [] => ret None
         | _ :: _ => ret (Some (values entry))
         end
       end)
      (fun _ => ret None).

Definition getValuesForKey (key : jsstring) : Async (option (list jsstring)) :=
  entry <- getEntryForKey key ;;
  match entry with
  | None => ret None
  | Some items => ret (Some (List.filter truthy (map value items)))
  end.

Definition saveValuesForKey (key : jsstring) (vs : list GlossaryValue) : Async unit :=
  if negb (isValidKey key) then throw (lit "Cannot save values: invalid key")
  else
    let association := getAssociationForKey key in
    removeByAssociation association ;;
    createWithAssociation (mkEntry vs) association.

Definition addValueToKey (key val : jsstring) (user : IUser)
    : Async AddValueResult :=
  if negb (isValidKey key) || negb (isValidValue val)
  then ret (mkResult false (Some error))
  else
    tryCatch
      (let normalizedValue := trim val in
       let normalizedValueKey := normalizeValue normalizedValue in
       entry <- getEntryForKey key ;;
       let existingValues := default [] entry in
       let hasDuplicate :=
         existsb (fun item => eqb (normalizeValue (value item)) normalizedValueKey)
                 existingValues in
       if hasDuplicate then ret (mkResult false (Some duplicate))
       else
         let createdBy := getUserEmail user in
         iso <- nowISO ;;
         let newValues := existingValues ++ [mkValue normalizedValue iso createdBy] in
         saveValuesForKey key newValues ;;
         ret (mkResult true None))
      (fun _ => ret (mkResult false (Some error))).

Definition removeKey (key : jsstring) : Async bool :=
  if negb (isValidKey key) then ret false
  else
    entry <- getEntryForKey key ;;
    match entry with
    | None => ret false
    | Some _ =>
      tryCatch
        (removeByAssociation (getAssociationForKey key) ;; ret true)
        (fun _ => ret false)
    end.

Definition removeValueForKey (key val : jsstring) : Async bool :=
  if negb (isValidKey key) || negb (isValidValue val) then ret false
  else
    entry <- getEntryForKey key ;;
    match entry with
    | None | Some [] => ret false
    | Some items =>
      let normalizedValue := normalizeValue val in
      let filtered :=
        List.filter
          (fun item =>
             if negb (truthy (value item)) then true
             else negb (eqb (normalizeValue (value item)) normalizedValue))
          items in
      if (length filtered =? length items)%nat then ret false
      else
        tryCatch
          (match filtered with
           | [] => removeByAssociation (getAssociationForKey key)
           | _ :: _ => saveValuesForKey key filtered
           end ;;
           ret true)
          (fun _ => ret false)
    end.

Definition sendMessage (r : IRoom) (t : jsstring) : Async unit :=
  if negb (truthy (trim t)) then ret tt
  else
    tryCatch
      (hostCall Finish ;; fun w => (Returned tt, deliver r t w))
      (fun _ => ret tt).

Definition sendValuesToUser (r : IRoom) (key : jsstring) (vs : list jsstring)
    : Async unit :=
  match vs with
  | [] => ret tt
  | _ :: _ => sendMessage r (formatValuesForDisplay key vs)
  end.

Definition parseKeyValue (t : jsstring) : option KeyValuePair :=
  if negb (truthy t) then None
  else
    let colonIndex := indexOf t 58%N in
    if (colonIndex <=? 0)%Z then None
    else
      let key := trim (substring t 0 (Some colonIndex)) in
      let val := trim (substring t (colonIndex + 1) None) in
      if negb (isValidKey key) || negb (isValidValue val) then None
      else Some (mkPair key val).

Definition extractCommandPayload (t command : jsstring) : jsstring :=
  let trimmed := orElse (trim t) [] in
  let prefix := COMMAND_PREFIX ++ command in
  if negb (startsWith (toLowerCase trimmed) prefix) then []
  else trim (substring trimmed (Z.of_nat (length prefix)) None).

(** [message.text?.trim() || ''], the first line of every handler. *)
Definition messageText (message : IMessage) : jsstring :=
  orElse (trim (default [] (text message))) [].

(** [responseText] of [handleAddCommand]. *)
Definition addResponse (kv : KeyValuePair) (result : AddValueResult) : jsstring :=
  if added result then MESSAGES.VALUE_ADDED (pair_key kv) (pair_value kv)
  else
    match reason result with
    | Some duplicate => MESSAGES.DUPLICATE_VALUE (pair_key kv)
    | _ => MESSAGES.SAVE_ERROR
    end.

Definition handleAddCommand (message : IMessage) : Async unit :=
  let t := messageText message in
  let commandText := extractCommandPayload t (COMMANDS ADD) in
  match parseKeyValue commandText with
  | None => sendMessage (room message) MESSAGES.INVALID_ADD_FORMAT
  | Some kv =>
    result <- addValueToKey (pair_key kv) (pair_value kv) (sender message) ;;
    sendMessage (room message) (addResponse kv result)
  end.

(** [cleanLine] of [parseMultiAdd]: one [';'] at the end is dropped. *)
Definition cleanLine (line : jsstring) : jsstring :=
  if endsWith line (lit ";") then trim (slice line 0 (-1)) else line.

Definition parseMultiAdd (t : jsstring) : list KeyValuePair :=
  let lines :=
    List.filter (fun line => (0 <? length line)%nat) (map trim (split 10%N t)) in
  fold_left
    (fun pairs line =>
       match parseKeyValue (cleanLine line) with
       | Some kv => pairs ++ [kv]
       | None => pairs
       end)
    lines [].

(** The three counters of [handleMultiAddCommand]. *)
Record Tally := mkTally { t_added : nat; t_duplicates : nat; t_errors : nat }.

(** One turn of the loop of [handleMultiAddCommand]. *)
Definition count (result : AddValueResult) (c : Tally) : Tally :=
  if added result then mkTally (t_added c + 1) (t_duplicates c) (t_errors c)
  else
    match reason result with
    | Some duplicate => mkTally (t_added c) (t_duplicates c + 1) (t_errors c)
    | _ => mkTally (t_added c) (t_duplicates c) (t_errors c + 1)
    end.

(** The [for (const pair of pairs)] loop, with its counters. *)
Fixpoint addAll (pairs : list KeyValuePair) (user : IUser) (c : Tally)
    : Async Tally :=
  match pairs with
  | [] => ret c
  | kv :: rest =>
    result <- addValueToKey (pair_key kv) (pair_value kv) user ;;
    addAll rest user (count result c)
  end.

(** [responseParts.join('\n')] of [handleMultiAddCommand]. *)
Definition summary (c : Tally) : jsstring :=
  let responseParts :=
    [lit "✅ Добавлено значений: " ++ digitsOf (t_added c)]
    ++ (if (0 <? t_duplicates c)%nat
        then [lit "⚠️ Пропущено дубликатов: " ++ digitsOf (t_duplicates c)]
        else [])
    ++ (if (0 <? t_errors c)%nat
        then [lit "❌ Ошибок: " ++ digitsOf (t_errors c)]
        else []) in
  join nl responseParts.

Definition handleMultiAddCommand (message : IMessage) : Async unit :=
  let t := messageText message in
  let commandText := extractCommandPayload t (COMMANDS MULTI_ADD) in
  let pairs := parseMultiAdd commandText in
  match pairs with
  | [] => sendMessage (room message) MESSAGES.INVALID_MULTI_ADD_FORMAT
  | _ :: _ =>
    c <- addAll pairs (sender message) (mkTally 0 0 0) ;;
    sendMessage (room message) (summary c)
  end.

Definition handleRemoveCommand (message : IMessage) : Async unit :=
  let t := messageText message in
  let commandText := extractCommandPayload t (COMMANDS REMOVE) in
  match parseKeyValue commandText with
  | Some kv =>
    removed <- removeValueForKey (pair_key kv) (pair_value kv) ;;
    sendMessage (room message)
      (if removed : bool
       then MESSAGES.VALUE_REMOVED (pair_key kv) (pair_value kv)
       else MESSAGES.VALUE_NOT_FOUND (pair_key kv) (pair_value kv))
  | None =>
    let key := trim commandText in
    if negb (isValidKey key)
    then sendMessage (room message) MESSAGES.INVALID_REMOVE_FORMAT
    else
      removed <- removeKey key ;;
      sendMessage (room message)
        (if removed : bool then MESSAGES.KEY_REMOVED key
         else MESSAGES.KEY_NOT_FOUND key)
  end.

(** [detailsText] of [handleDetailsCommand]. *)
Definition detailsText (key : jsstring) (valueInfo : GlossaryValue) : jsstring :=
  (lit "*Ключ:* " ++ key ++ nl)
  ++ (lit "*Значение:* " ++ value valueInfo ++ nl)
  ++ (lit "*Добавлено:* " ++ formatDate (createdAt valueInfo) ++ nl)
  ++ (lit "*Автор:* " ++ createdBy valueInfo).

Definition handleDetailsCommand (message : IMessage) : Async unit :=
  let t := messageText message in
  let commandText := extractCommandPayload t (COMMANDS DETAILS) in
  match parseKeyValue commandText with
  | None => sendMessage (room message) MESSAGES.INVALID_DETAILS_FORMAT
  | Some kv =>
    entry <- getEntryForKey (pair_key kv) ;;
    match entry with
    | None => sendMessage (room message) (MESSAGES.KEY_NOT_FOUND (pair_key kv))
    | Some items =>
      let normalizedValue := normalizeValue (pair_value kv) in
      match find (fun item => eqb (normalizeValue (value item)) normalizedValue)
                 items with
      | None =>
        sendMessage (room message)
          (MESSAGES.VALUE_NOT_FOUND (pair_key kv) (pair_value kv))
      | Some valueInfo =>
        sendMessage (room message) (detailsText (pair_key kv) valueInfo)
      end
    end
  end.

Definition handleHelpCommand (r : IRoom) : Async unit :=
  sendMessage r helpText.

Definition shouldProcessMessage (message : IMessage) : Async bool :=
  if negb (eqb (room_type (room message)) ROOM_TYPE_DIRECT) then ret false
  else
    bot <- getAppUser ;;
    match bot with
    | None => ret false
    | Some bot' =>
      if eqb (user_id (sender message)) (user_id bot') then ret false
      else if negb (truthy (trim (default [] (text message)))) then ret false
      else ret true
    end.

Definition handleKeySearch (key : jsstring) (r : IRoom) : Async unit :=
  if negb (isValidKey key) then sendMessage r MESSAGES.INVALID_SEARCH_KEY
  else
    vs <- getValuesForKey key ;;
    match vs with
    | Some (v :: vs') => sendValuesToUser r key (v :: vs')
    | _ => sendMessage r (MESSAGES.KEY_NOT_FOUND_SEARCH key)
    end.

Definition executeCommand (commandType : CommandType) (message : IMessage)
    : Async unit :=
  match commandType with
  | ADD => handleAddCommand message
  | MULTI_ADD => handleMultiAddCommand message
  | REMOVE => handleRemoveCommand message
  | DETAILS => handleDetailsCommand message
  | HELP => handleHelpCommand (room message)
  end.

Definition executePostMessageSent (message : IMessage) : Async unit :=
  ok <- shouldProcessMessage message ;;
  if negb ok then ret tt
  else
    let t := messageText message in
    match getCommandType t with
    | Some commandType => executeCommand commandType message
    | None => handleKeySearch t (room message)
    end.

End GlossaryBotApp.

(** ** A runtime and sample data to run the model on *)

Definition asciiLower (c : char) : char :=
  if ((65 <=? c) && (c <=? 90))%N then (c + 32)%N else c.

(** Lower-cases A-Z only and renders a time value as its decimal
    milliseconds; enough to run the app on ASCII input. *)
#[export] Instance testRuntime : Runtime := {|
  toLowerCase := map asciiLower;
  toISOString := fun t => uintUnits (N.to_uint (Z.to_N t));
  dateParse := fun s =>
    if forallb (fun c => (48 <=? c) && (c <=? 57))%N s
    then Some (Z.of_N (fold_left (fun n c => n * 10 + (c - 48))%N s 0%N))
    else None;
  toLocaleString := fun t => lit "ms " ++ uintUnits (N.to_uint (Z.to_N t))
|}.

Definition alice : IUser :=
  mkUser (lit "u1") (Some [mkEmail (lit "alice@example.org") true])
         (lit "alice") (lit "Alice").

Definition bot : IUser := mkUser (lit "bot") None (lit "glossary.bot") (lit "Glossary").

Definition directRoom : IRoom := mkRoom (lit "r1") (lit "d").
Definition channelRoom : IRoom := mkRoom (lit "r2") (lit "c").

Definition emptyWorld : World := mkWorld ∅ [] (Some bot) 1700000000000 [] [].

Definition says (r : IRoom) (u : IUser) (t : jsstring) : IMessage :=
  mkMessage (lit "m") r u (Some t).

(** The world after the listed messages, sent in order by [alice] in a
    direct room. *)
Definition after (texts : list jsstring) (w : World) : World :=
  fold_left (fun w t => snd (executePostMessageSent (says directRoom alice t) w))
            texts w.

(** A batch with a repeated line and a line that is no pair. *)
Definition batch : jsstring :=
  lit "!multi-add" ++ nl ++ lit "A:1;" ++ nl ++ lit "B:2;" ++ nl ++ lit "A:1;"
  ++ nl ++ lit "garbage".

Definition withFaults (fs : list (option Error)) (w : World) : World :=
  mkWorld (db w) (outbox w) (appUser w) (clock w) fs (trace w).

(** The store after [alice] has added REST under API. *)
Definition apiWorld : World :=
  snd (addValueToKey (lit "API") (lit "REST") alice emptyWorld).

(** ** Vocabulary of the specification *)

(** What may follow a command word: the end of the text, or white space. *)
Definition boundary (rest : jsstring) : Prop :=
  rest = [] \/ exists c rest', rest = c :: rest' /\ isWhiteSpace c = true.

(** The trimmed text is ['!'], the word of [c], and then a boundary. *)
Definition isCommandText (t : jsstring) (c : CommandType) : Prop :=
  exists rest, trim t = COMMAND_PREFIX ++ COMMANDS c ++ rest /\ boundary rest.

(** The order in which the command words are tried. *)
Definition priority : list CommandType := [ADD; MULTI_ADD; REMOVE; DETAILS; HELP].

(** [w] spells [word] with at least one letter in upper case. *)
Definition respelling (w word : jsstring) : Prop :=
  map asciiLower w = word /\ w <> word.

(** No record of the store has an empty list of values. *)
Definition nonEmptyEntries (m : gmap (list N) (list GlossaryEntry)) : Prop :=
  forall association records entry,
    m !! association = Some records -> In entry records -> values entry <> [].

(** What a read of [association] that does not raise makes of the store. *)
Definition stored (m : gmap (list N) (list GlossaryEntry)) (association : jsstring)
    : option (list GlossaryValue) :=
  match default [] (m !! association) with
  | [] => None
  | entry :: _ =>
    match values entry with
    | [] => None
    | _ :: _ => Some (values entry)
    end
  end.

(** The value [addValueToKey] appends for [val], written by [user] in [w]. *)
Definition newValue `{Runtime} (val : jsstring) (user : IUser) (w : World)
    : GlossaryValue :=
  mkValue (trim val) (toISOString (clock w)) (getUserEmail user).

(** [item] holds [val] up to trimming and case. *)
Definition sameValue `{Runtime} (val : jsstring) (item : GlossaryValue) : bool :=
  eqb (normalizeValue (value item)) (normalizeValue val).

(** [m] returns in every world: no exception leaves it. *)
Definition neverThrows {A} (m : Async A) : Prop :=
  forall w, exists a w', m w = (Returned a, w').

(** [m] keeps [nonEmptyEntries], however it ends. *)
Definition keepsNonEmpty {A} (m : Async A) : Prop :=
  forall w, nonEmptyEntries (db w) -> nonEmptyEntries (db (snd (m w))).

(** What [removeValueForKey] keeps of an entry when it removes [val]. *)
Definition kept `{Runtime} (val : jsstring) (items : list GlossaryValue)
    : list GlossaryValue :=
  List.filter
    (fun item =>
       if negb (truthy (value item)) then true
       else negb (eqb (normalizeValue (value item)) (normalizeValue val)))
    items.

(** The pairs added one after the other, each outcome kept. *)
Fixpoint addEach `{Runtime} (pairs : list KeyValuePair) (user : IUser)
    : Async (list AddValueResult) :=
  match pairs with
  | [] => ret []
  | kv :: rest =>
    result <- addValueToKey (pair_key kv) (pair_value kv) user ;;
    results <- addEach rest user ;;
    ret (result :: results)
  end.

(** The three outcomes of [addValueToKey]. *)
Definition isAdded (result : AddValueResult) : bool := added result.

Definition isDuplicate (result : AddValueResult) : bool :=
  negb (added result)
  && match reason result with Some duplicate => true | _ => false end.

Definition isError (result : AddValueResult) : bool :=
  negb (added result)
  && match reason result with Some duplicate => false | _ => true end.

(** The non-blank lines of a payload, trimmed. *)
Definition payloadLines (payload : jsstring) : list jsstring :=
  List.filter truthy (map trim (split 10%N payload)).

(** The error the next host call raises, if it raises. *)
Definition nextRaises (w : World) : option Error :=
  match faults w with
  | Some e :: _ => Some e
  | _ => None
  end.

(** The world once the host call [c] has been answered from the schedule. *)
Definition answered (c : HostCall) (w : World) : World :=
  called c (nextRaises w) (tail (faults w)) w.

(** The host calls of [w'] that [w] had not made yet. *)
Definition callsBetween (w w' : World) : list (HostCall * option Error) :=
  drop (length (trace w)) (trace w').

(** A persistence write raised: [removeByAssociation] or
    [createWithAssociation] ended with an error. *)
Definition writeRaised (calls : list (HostCall * option Error)) : Prop :=
  exists association e,
    In (RemoveByAssociation association, Some e) calls
    \/ In (CreateWithAssociation association, Some e) calls.

(** A persistence call, read or write, raised. *)
Definition persistenceRaised (calls : list (HostCall * option Error)) : Prop :=
  exists association e,
    In (ReadByAssociation association, Some e) calls
    \/ In (RemoveByAssociation association, Some e) calls
    \/ In (CreateWithAssociation association, Some e) calls.

(** The run [run] returned after one attempt, made in the world [w], to send
    the text [t] to the room [r]: [t] is not blank, the host's [finish] is the
    one call made since [w], the outbox is that of [w] followed by [(r, t)],
    or that of [w] alone when the call raised, and the store is that of
    [w]. *)
Definition repliedWith (r : IRoom) (t : jsstring) (w : World)
    (run : Outcome unit * World) : Prop :=
  fst run = Returned tt
  /\ truthy (trim t) = true
  /\ outbox (snd run) = match nextRaises w with
                        | None => outbox w ++ [(r, t)]
                        | Some _ => outbox w
                        end
  /\ db (snd run) = db w
  /\ callsBetween w (snd run) = [(Finish, nextRaises w)].

(** ** Vocabulary of the further properties *)

(** [Q] holds of the values of every record of the store. *)
Definition everyEntry (Q : list GlossaryValue -> Prop)
    (m : gmap (list N) (list GlossaryEntry)) : Prop :=
  forall association records entry,
    m !! association = Some records -> In entry records -> Q (values entry).

(** No two values of the list normalize alike. *)
Definition distinctValues `{Runtime} (items : list GlossaryValue) : Prop :=
  NoDup (map (fun item => normalizeValue (value item)) items).

(** Every value of the list is trimmed and valid. *)
Definition cleanValues `{Runtime} (items : list GlossaryValue) : Prop :=
  Forall (fun item => trim (value item) = value item
                      /\ isValidValue (value item) = true) items.

(** [Q] of every record is kept. *)
Definition keepsEvery (Q : list GlossaryValue -> Prop) (w w' : World) : Prop :=
  everyEntry Q (db w) -> everyEntry Q (db w').

(** [m] takes every world to one that [R] relates to it, however it ends. *)
Definition always {A} (R : World -> World -> Prop) (m : Async A) : Prop :=
  forall w, R w (snd (m w)).

Definition sameStore (w w' : World) : Prop := db w' = db w.

Definition sameOutbox (w w' : World) : Prop := outbox w' = outbox w.

(** The store is the same outside of [association]. *)
Definition sameElsewhere (association : jsstring) (w w' : World) : Prop :=
  forall k, k <> association -> db w' !! k = db w !! k.

(** No fault is scheduled. *)
Definition calm (w : World) : Prop := faults w = [].

Definition staysCalm (w w' : World) : Prop := calm w -> calm w'.

(** One message more in the outbox: [t], not blank, to the room [r]. *)
Definition oneReply (r : IRoom) (w w' : World) : Prop :=
  exists t, truthy (trim t) = true /\ outbox w' = outbox w ++ [(r, t)].

Definition atMostOneReply (r : IRoom) (w w' : World) : Prop :=
  outbox w' = outbox w \/ oneReply r w w'.

(** [m] works behind the scenes: it never throws, delivers nothing and
    schedules no fault. *)
Definition silent {A} (m : Async A) : Prop :=
  neverThrows m /\ always sameOutbox m /\ always staysCalm m.

(** [m] is silent work that ends in one [sendMessage] of a text that is not
    blank, to the room [r]. *)
Inductive Replies (r : IRoom) : Async unit -> Prop :=
| Replies_send (t : jsstring) :
    truthy (trim t) = true -> Replies r (sendMessage r t)
| Replies_bind {A} (m : Async A) (k : A -> Async unit) :
    silent m -> (forall a, Replies r (k a)) -> Replies r (bind m k).

(** In a calm world [m] replies once to [r]. *)
Definition answers {A} (r : IRoom) (m : Async A) : Prop :=
  forall w, calm w -> oneReply r w (snd (m w)).

(** ** Facts about strings *)

Module JSStringFacts.

Lemma orElse_nil (s : jsstring) : orElse s [] = s.
Proof. destruct s; reflexivity. Qed.

Lemma trimStart_head (s : jsstring) :
  trimStart s = [] \/
  exists c s', trimStart s = c :: s' /\ isWhiteSpace c = false.
Proof.
  induction s as [|c s IH]; simpl; [now left|].
  destruct (isWhiteSpace c) eqn:E; [exact IH|].
  right. now exists c, s.
Qed.

Lemma trimEnd_cons (c : char) (s : jsstring) :
  trimEnd (c :: s) =
  match trimEnd s with
  | [] => if isWhiteSpace c then [] else [c]
  | _ :: _ => c :: trimEnd s
  end.
Proof. reflexivity. Qed.

Lemma trimEnd_head (c : char) (s : jsstring) :
  isWhiteSpace c = false -> exists s', trimEnd (c :: s) = c :: s'.
Proof.
  intros E. rewrite trimEnd_cons, E.
  destruct (trimEnd s); eauto.
Qed.

Lemma trimEnd_idem (s : jsstring) : trimEnd (trimEnd s) = trimEnd s.
Proof.
  induction s as [|c s IH]; [reflexivity|].
  rewrite trimEnd_cons.
  destruct (trimEnd s) as [|x r] eqn:E.
  - destruct (isWhiteSpace c) eqn:W; [reflexivity|].
    rewrite trimEnd_cons. simpl. now rewrite W.
  - rewrite trimEnd_cons, IH. reflexivity.
Qed.

Lemma trim_idem (s : jsstring) : trim (trim s) = trim s.
Proof.
  unfold trim.
  destruct (trimStart_head s) as [E | (c & s' & E & W)]; rewrite E.
  - reflexivity.
  - destruct (trimEnd_head c s' W) as [s'' E'].
    rewrite E'. simpl. rewrite W, <- E'. apply trimEnd_idem.
Qed.

Lemma trimStart_fixed (c : char) (s : jsstring) :
  isWhiteSpace c = false -> trimStart (c :: s) = c :: s.
Proof. intros W. simpl. now rewrite W. Qed.


Lemma trimEnd_keep (c : char) (s : jsstring) :
  isWhiteSpace c = false -> trimEnd (c :: s) = c :: trimEnd s.
Proof.
  intros W. rewrite trimEnd_cons, W. now destruct (trimEnd s).
Qed.

Lemma trimEnd_app (a b : jsstring) :
  trimEnd b <> [] -> trimEnd (a ++ b) = a ++ trimEnd b.
Proof.
  intros Hb. induction a as [|c a IH]; [reflexivity|].
  rewrite <- app_comm_cons, trimEnd_cons, IH.
  destruct (a ++ trimEnd b) eqn:E; [|now rewrite <- E].
  apply app_eq_nil in E as [_ E]. contradiction.
Qed.

Lemma trimStart_app (a b : jsstring) :
  trimStart a <> [] -> trimStart (a ++ b) = trimStart a ++ b.
Proof.
  induction a as [|c a IH]; simpl; [contradiction|].
  destruct (isWhiteSpace c); [exact IH|reflexivity].
Qed.

Lemma trimStart_trimEnd (s : jsstring) : trimStart (trimEnd s) = trimEnd (trimStart s).
Proof.
  induction s as [|c s IH]; [reflexivity|].
  destruct (isWhiteSpace c) eqn:W.
  - rewrite trimEnd_cons, W. cbn [trimStart]. rewrite W, <- IH.
    destruct (trimEnd s) as [|x r]; [reflexivity|].
    cbn [trimStart]. now rewrite W.
  - rewrite (trimStart_fixed c s W), (trimEnd_keep c s W).
    now apply trimStart_fixed.
Qed.


Lemma trim_trimEnd (s : jsstring) : trim (trimEnd s) = trim s.
Proof. unfold trim. now rewrite trimStart_trimEnd, trimEnd_idem. Qed.

Lemma trimStart_In (c : char) (s : jsstring) : In c (trimStart s) -> In c s.
Proof.
  induction s as [|x s IH]; simpl; [auto|].
  destruct (isWhiteSpace x); [auto|]. simpl. auto.
Qed.

Lemma trim_nil : trim [] = [].
Proof. reflexivity. Qed.

Lemma startsWith_app (p r : jsstring) : startsWith (p ++ r) p = true.
Proof.
  induction p as [|c p IH]; simpl; [reflexivity|].
  now rewrite N.eqb_refl.
Qed.

Lemma startsWith_split (s p : jsstring) :
  startsWith s p = true -> exists r, s = p ++ r.
Proof.
  revert s. induction p as [|c p IH]; intros s Hs.
  - now exists s.
  - destruct s as [|x s]; simpl in Hs; [discriminate|].
    apply andb_true_iff in Hs as [Hx Hs]. apply N.eqb_eq in Hx. subst x.
    destruct (IH _ Hs) as [r ->]. now exists r.
Qed.

Lemma charAt_after (p r : jsstring) :
  charAt (p ++ r) (length p) =
  match r with
  | [] => []
  | c :: _ => [c]
  end.
Proof.
  unfold charAt. rewrite lookup_app_r by lia.
  rewrite Nat.sub_diag. now destruct r.
Qed.

Lemma indexOf_lower (s : jsstring) (c : char) : (-1 <= indexOf s c)%Z.
Proof.
  induction s as [|x s IH]; simpl; [lia|].
  destruct (x =? c)%N; [lia|].
  destruct (indexOf s c <? 0)%Z eqn:E; lia.
Qed.

Lemma indexOf_absent (s : jsstring) (c : char) :
  ~ In c s -> indexOf s c = (-1)%Z.
Proof.
  induction s as [|x s IH]; simpl; intros Hn; [reflexivity|].
  destruct (N.eqb_spec x c) as [->|_]; [exfalso; auto|].
  rewrite IH by auto. reflexivity.
Qed.

Lemma indexOf_first (before after : jsstring) (c : char) :
  ~ In c before ->
  indexOf (before ++ c :: after) c = Z.of_nat (length before).
Proof.
  induction before as [|x before IH]; simpl; intros Hn.
  - now rewrite N.eqb_refl.
  - destruct (N.eqb_spec x c) as [->|_]; [exfalso; auto|].
    rewrite IH by auto.
    destruct (Z.of_nat (length before) <? 0)%Z eqn:E; lia.
Qed.

Lemma substring_before (before after : jsstring) (c : char) :
  substring (before ++ c :: after) 0 (Some (Z.of_nat (length before))) = before.
Proof.
  unfold substring, clamp. rewrite length_app. simpl.
  rewrite Nat2Z.id.
  replace (Nat.min (length before) (length before + S (length after)))
    with (length before) by lia.
  rewrite Nat.sub_0_r, drop_0. apply take_app_length.
Qed.

Lemma substring_after (before after : jsstring) (c : char) :
  substring (before ++ c :: after) (Z.of_nat (length before) + 1) None = after.
Proof.
  unfold substring, clamp. rewrite length_app. simpl.
  replace (Z.to_nat (Z.of_nat (length before) + 1)) with (S (length before)) by lia.
  set (n := (length before + S (length after))%nat).
  replace (Nat.min (S (length before)) n) with (S (length before)) by lia.
  rewrite Nat.max_r, Nat.min_l by lia.
  replace (S (length before)) with (length (before ++ [c]))
    by (rewrite length_app; simpl; lia).
  replace (before ++ c :: after) with ((before ++ [c]) ++ after)
    by (now rewrite <- app_assoc).
  rewrite drop_app_length. apply take_ge.
  subst n. rewrite length_app. simpl. lia.
Qed.

Lemma substring_from (p r : jsstring) :
  substring (p ++ r) (Z.of_nat (length p)) None = r.
Proof.
  unfold substring, clamp. rewrite length_app, Nat2Z.id.
  replace (Nat.min (length p) (length p + length r)) with (length p) by lia.
  rewrite Nat.max_r, Nat.min_l by lia.
  rewrite drop_app_length. apply take_ge. lia.
Qed.

Lemma includes_app (a needle b : jsstring) :
  includes (a ++ needle ++ b) needle = true.
Proof.
  induction a as [|x a IH]; simpl.
  - destruct needle; simpl.
    + now destruct b.
    + rewrite N.eqb_refl, startsWith_app. reflexivity.
  - rewrite IH. apply orb_true_r.
Qed.

End JSStringFacts.
Import JSStringFacts.

(** A text that begins with a text that is not blank is not blank. *)
Lemma nonblank_app (a b : jsstring) :
  truthy (trim a) = true -> truthy (trim (a ++ b)) = true.
Proof.
  unfold trim. intros T.
  destruct (trimStart_head a) as [E | (c & s' & E & W)].
  - rewrite E in T. discriminate.
  - rewrite trimStart_app by (rewrite E; discriminate).
    rewrite E, <- app_comm_cons.
    destruct (trimEnd_head c (s' ++ b) W) as [s'' ->]. reflexivity.
Qed.

Ltac nonblank :=
  lazymatch goal with
  | |- truthy (trim (_ ++ _)) = true => apply nonblank_app; nonblank
  | |- truthy (trim _) = true => vm_compute; reflexivity
  end.

(** ** Classification of commands *)

Lemma eqb_true (a b : jsstring) : eqb a b = true <-> a = b.
Proof. unfold eqb. apply bool_decide_eq_true. Qed.

Lemma eqb_false (a b : jsstring) : eqb a b = false <-> a <> b.
Proof. unfold eqb. apply bool_decide_eq_false. Qed.

Lemma eqb_refl (a : jsstring) : eqb a a = true.
Proof. now apply eqb_true. Qed.

Lemma boundary_test (rest : jsstring) :
  (let nextChar := match rest with [] => [] | c :: _ => [c] end in
   eqb nextChar [] || testWhiteSpace nextChar) = true <-> boundary rest.
Proof.
  unfold boundary. destruct rest as [|c rest]; cbv zeta.
  - rewrite eqb_refl. simpl. split; auto.
  - replace (eqb [c] []) with false by (symmetry; now apply eqb_false).
    unfold testWhiteSpace. simpl. rewrite orb_false_r. split.
    + intros W. right. now exists c, rest.
    + intros [E | (c' & rest' & E & W)]; [discriminate|].
      now injection E as -> ->.
Qed.

Lemma matchesCommand_iff (t : jsstring) (c : CommandType) :
  matchesCommand t (COMMANDS c) = true <-> isCommandText t c.
Proof.
  unfold matchesCommand, isCommand, isCommandText.
  rewrite orElse_nil. split.
  - destruct (startsWith (trim t) COMMAND_PREFIX); cbn [negb]; [|discriminate].
    destruct (startsWith (trim t) (COMMAND_PREFIX ++ COMMANDS c)) eqn:S;
      cbn [negb]; [|discriminate].
    apply startsWith_split in S as [rest E]. rewrite E, charAt_after.
    intros B. apply boundary_test in B.
    exists rest. now rewrite <- app_assoc in E.
  - intros (rest & E & B). rewrite E.
    rewrite startsWith_app. cbn [negb].
    rewrite app_assoc, startsWith_app. cbn [negb].
    rewrite charAt_after. now apply boundary_test.
Qed.

Lemma matchesCommand_other (t : jsstring) (c c' : CommandType) :
  isCommandText t c -> c' <> c -> matchesCommand t (COMMANDS c') = false.
Proof.
  intros (rest & E & _) Hne. unfold matchesCommand, isCommand.
  rewrite orElse_nil, E.
  destruct c, c'; try congruence; reflexivity.
Qed.

Lemma getCommandType_iff (t : jsstring) (c : CommandType) :
  getCommandType t = Some c <-> isCommandText t c.
Proof.
  split.
  - unfold getCommandType. intros G.
    repeat match type of G with
           | (if matchesCommand t ?w then _ else _) = _ =>
             let M := fresh "M" in
             destruct (matchesCommand t w) eqn:M;
               [injection G as <-; now apply matchesCommand_iff|]
           end.
    discriminate.
  - intros I. unfold getCommandType.
    pose proof (proj2 (matchesCommand_iff t c) I) as M.
    destruct c;
      repeat first
        [ rewrite M
        | rewrite (matchesCommand_other t _ _ I) by discriminate ];
      reflexivity.
Qed.

Lemma getCommandType_priority (t : jsstring) :
  getCommandType t = find (fun c => matchesCommand t (COMMANDS c)) priority.
Proof.
  unfold getCommandType, priority. simpl.
  repeat match goal with
         | |- context [matchesCommand t ?w] => destruct (matchesCommand t w)
         end; reflexivity.
Qed.

Lemma getCommandType_none (t : jsstring) :
  getCommandType t = None <-> forall c, ~ isCommandText t c.
Proof.
  split.
  - intros G c I. apply getCommandType_iff in I. congruence.
  - intros A. destruct (getCommandType t) as [c|] eqn:G; [|reflexivity].
    apply getCommandType_iff in G. now destruct (A c).
Qed.

Lemma word_head (c : CommandType) :
  exists x word', COMMANDS c = x :: word' /\ asciiLower x = x.
Proof. destruct c; eexists _, _; split; reflexivity. Qed.

Lemma word_head_inj (c c' : CommandType) (x : char) (r r' : jsstring) :
  COMMANDS c = x :: r -> COMMANDS c' = x :: r' -> c = c'.
Proof.
  destruct c, c'; intros E E'; try reflexivity; exfalso;
    vm_compute in E, E'; injection E as <- _; discriminate E'.
Qed.

Lemma respelling_unclassified (t w rest : jsstring) (c : CommandType) :
  respelling w (COMMANDS c) ->
  trim t = COMMAND_PREFIX ++ w ++ rest ->
  getCommandType t = None.
Proof.
  intros [Hmap Hne] Ht. apply getCommandType_none.
  intros c' (rest' & E & _). rewrite Ht in E.
  apply app_inv_head in E.
  assert (c = c') as <-.
  { destruct (word_head c') as (x & r' & Ec' & Hx).
    rewrite Ec' in E. destruct w as [|y w]; simpl in *.
    - destruct c; discriminate.
    - injection E as -> _. rewrite Hx in Hmap.
      now apply (word_head_inj c c' x (map asciiLower w) r'). }
  apply app_inj_1 in E as [E _]; [contradiction|].
  now rewrite <- Hmap, length_map.
Qed.

(** ** Running the host calls *)

Lemma bind_run {A B} (m : Async A) (k : A -> Async B) (w : World) :
  bind m k w =
  match m w with
  | (Returned a, w') => k a w'
  | (Thrown e, w') => (Thrown e, w')
  end.
Proof. reflexivity. Qed.

Lemma tryCatch_run {A} (body : Async A) (handler : Error -> Async A) (w : World) :
  tryCatch body handler w =
  match body w with
  | (Returned a, w') => (Returned a, w')
  | (Thrown e, w') => handler e w'
  end.
Proof. reflexivity. Qed.

Lemma hostCall_run (c : HostCall) (w : World) :
  hostCall c w =
  (match nextRaises w with
   | Some e => Thrown e
   | None => Returned tt
   end, answered c w).
Proof.
  unfold hostCall, nextRaises, answered, nextRaises.
  destruct (faults w) as [|[e|] rest]; reflexivity.
Qed.

Lemma answered_db (c : HostCall) (w : World) : db (answered c w) = db w.
Proof. reflexivity. Qed.

Lemma answered_outbox (c : HostCall) (w : World) : outbox (answered c w) = outbox w.
Proof. reflexivity. Qed.

Lemma answered_clock (c : HostCall) (w : World) : clock (answered c w) = clock w.
Proof. reflexivity. Qed.

Lemma answered_trace (c : HostCall) (w : World) :
  trace (answered c w) = trace w ++ [(c, nextRaises w)].
Proof. reflexivity. Qed.

Lemma callsBetween_refl (w : World) : callsBetween w w = [].
Proof. unfold callsBetween. apply drop_all. Qed.

Lemma callsBetween_answered (c : HostCall) (w : World) :
  callsBetween w (answered c w) = [(c, nextRaises w)].
Proof. unfold callsBetween. rewrite answered_trace. apply drop_app_length. Qed.

Lemma nextRaises_setDb f (w : World) : nextRaises (setDb f w) = nextRaises w.
Proof. reflexivity. Qed.

Lemma readByAssociation_run (association : jsstring) (w : World) :
  readByAssociation association w =
  (match nextRaises w with
   | Some e => Thrown e
   | None => Returned (default [] (db w !! association))
   end, answered (ReadByAssociation association) w).
Proof.
  unfold readByAssociation. rewrite bind_run, hostCall_run.
  destruct (nextRaises w); reflexivity.
Qed.

Lemma removeByAssociation_run (association : jsstring) (w : World) :
  removeByAssociation association w =
  match nextRaises w with
  | Some e => (Thrown e, answered (RemoveByAssociation association) w)
  | None =>
    (Returned tt,
     setDb (delete association) (answered (RemoveByAssociation association) w))
  end.
Proof.
  unfold removeByAssociation. rewrite bind_run, hostCall_run.
  destruct (nextRaises w); reflexivity.
Qed.

Lemma createWithAssociation_run (data : GlossaryEntry) (association : jsstring)
    (w : World) :
  createWithAssociation data association w =
  match nextRaises w with
  | Some e => (Thrown e, answered (CreateWithAssociation association) w)
  | None =>
    (Returned tt,
     setDb (fun m => <[association := default [] (m !! association) ++ [data]]> m)
           (answered (CreateWithAssociation association) w))
  end.
Proof.
  unfold createWithAssociation. rewrite bind_run, hostCall_run.
  destruct (nextRaises w); reflexivity.
Qed.

Section Proofs.

Context `{Runtime}.

Lemma normalizeKey_trim (key : jsstring) : normalizeKey (trim key) = normalizeKey key.
Proof. unfold normalizeKey. now rewrite trim_idem. Qed.

Lemma normalizeValue_trim (val : jsstring) :
  normalizeValue (trim val) = normalizeValue val.
Proof. unfold normalizeValue. now rewrite trim_idem. Qed.

Lemma isValidValue_trim (val : jsstring) : isValidValue (trim val) = isValidValue val.
Proof. unfold isValidValue. now rewrite normalizeValue_trim. Qed.

Lemma isValidKey_trim (key : jsstring) : isValidKey (trim key) = isValidKey key.
Proof. unfold isValidKey. now rewrite normalizeKey_trim. Qed.

Lemma getEntryForKey_run (key : jsstring) (w : World) :
  getEntryForKey key w =
  if negb (isValidKey key) then (Returned None, w)
  else
    (Returned (match nextRaises w with
               | Some _ => None
               | None => stored (db w) (normalizeKey key)
               end),
     answered (ReadByAssociation (normalizeKey key)) w).
Proof.
  unfold getEntryForKey, getAssociationForKey.
  destruct (isValidKey key); cbn [negb]; [|reflexivity].
  rewrite tryCatch_run, bind_run, readByAssociation_run.
  unfold stored.
  destruct (nextRaises w); [reflexivity|].
  destruct (default [] (db w !! normalizeKey key)) as [|entry records];
    [reflexivity|].
  destruct (values entry); reflexivity.
Qed.

Lemma getEntryForKey_not_empty (key : jsstring) (w : World) :
  fst (getEntryForKey key w) <> Returned (Some []).
Proof.
  rewrite getEntryForKey_run.
  destruct (isValidKey key); cbn [negb fst]; [|discriminate].
  destruct (nextRaises w); [discriminate|].
  unfold stored.
  destruct (default [] (db w !! normalizeKey key)) as [|entry records];
    [discriminate|].
  destruct (values entry) eqn:E; discriminate.
Qed.

Lemma sendMessage_run (r : IRoom) (t : jsstring) (w : World) :
  sendMessage r t w =
  if negb (truthy (trim t)) then (Returned tt, w)
  else
    (Returned tt,
     match nextRaises w with
     | Some _ => answered Finish w
     | None => deliver r t (answered Finish w)
     end).
Proof.
  unfold sendMessage. destruct (truthy (trim t)); cbn [negb]; [|reflexivity].
  rewrite tryCatch_run, bind_run, hostCall_run.
  destruct (nextRaises w); reflexivity.
Qed.

Lemma sendMessage_returns (r : IRoom) (t : jsstring) (w : World) :
  fst (sendMessage r t w) = Returned tt.
Proof.
  rewrite sendMessage_run. now destruct (negb (truthy (trim t))).
Qed.

Lemma sendMessage_db (r : IRoom) (t : jsstring) (w : World) :
  db (snd (sendMessage r t w)) = db w.
Proof.
  rewrite sendMessage_run. destruct (negb (truthy (trim t))); [reflexivity|].
  now destruct (nextRaises w).
Qed.

Lemma nonblank_addResponse (kv : KeyValuePair) (result : AddValueResult) :
  truthy (trim (addResponse kv result)) = true.
Proof.
  unfold addResponse.
  destruct (added result); [unfold MESSAGES.VALUE_ADDED; nonblank|].
  destruct (reason result) as [[]|];
    [unfold MESSAGES.DUPLICATE_VALUE; nonblank|nonblank|nonblank].
Qed.

Lemma nonblank_summary (c : Tally) : truthy (trim (summary c)) = true.
Proof.
  unfold summary.
  destruct (0 <? t_duplicates c)%nat, (0 <? t_errors c)%nat; cbn [app join];
    nonblank.
Qed.

Lemma nonblank_formatValuesForDisplay (key : jsstring) (vs : list jsstring) :
  truthy (trim (formatValuesForDisplay key vs)) = true.
Proof.
  unfold formatValuesForDisplay. destruct vs as [|v [|v' vs]]; nonblank.
Qed.

Lemma nonblank_detailsText (key : jsstring) (valueInfo : GlossaryValue) :
  truthy (trim (detailsText key valueInfo)) = true.
Proof. unfold detailsText. nonblank. Qed.

Lemma sendMessage_repliedWith (r : IRoom) (t : jsstring) (w : World) :
  truthy (trim t) = true -> repliedWith r t w (sendMessage r t w).
Proof.
  intros T. unfold repliedWith. rewrite sendMessage_run, T. cbn [negb fst snd].
  split; [reflexivity|]. split; [reflexivity|].
  destruct (nextRaises w) eqn:R.
  - split; [reflexivity|]. split; [reflexivity|].
    rewrite callsBetween_answered. now rewrite R.
  - split; [reflexivity|]. split; [reflexivity|].
    unfold callsBetween. cbn [deliver trace]. rewrite answered_trace, R.
    apply drop_app_length.
Qed.

Lemma saveValuesForKey_run (key : jsstring) (vs : list GlossaryValue) (w : World) :
  isValidKey key = true ->
  saveValuesForKey key vs w =
  let association := normalizeKey key in
  match nextRaises w with
  | Some e => (Thrown e, answered (RemoveByAssociation association) w)
  | None =>
    let w1 := setDb (delete association)
                    (answered (RemoveByAssociation association) w) in
    match nextRaises w1 with
    | Some e => (Thrown e, answered (CreateWithAssociation association) w1)
    | None =>
      (Returned tt,
       setDb (fun m => <[association := [mkEntry vs]]> m)
             (answered (CreateWithAssociation association) w1))
    end
  end.
Proof.
  intros V. unfold saveValuesForKey, getAssociationForKey. rewrite V.
  cbn [negb]. rewrite bind_run, removeByAssociation_run.
  destruct (nextRaises w); [reflexivity|]. cbv zeta.
  rewrite createWithAssociation_run.
  destruct (nextRaises _); [reflexivity|].
  f_equal. unfold setDb, answered, called. cbn [db]. now rewrite lookup_delete_eq.
Qed.

Lemma addValueToKey_invalid (key val : jsstring) (user : IUser) (w : World) :
  isValidKey key && isValidValue val = false ->
  addValueToKey key val user w = (Returned (mkResult false (Some error)), w).
Proof.
  intros V. unfold addValueToKey.
  destruct (isValidKey key), (isValidValue val); try discriminate; reflexivity.
Qed.

Lemma addValueToKey_run (key val : jsstring) (user : IUser) (w : World) :
  isValidKey key = true -> isValidValue val = true ->
  addValueToKey key val user w =
  let association := normalizeKey key in
  let w1 := answered (ReadByAssociation association) w in
  let existingValues :=
    default [] (match nextRaises w with
                | Some _ => None
                | None => stored (db w) association
                end) in
  if existsb (sameValue val) existingValues
  then (Returned (mkResult false (Some duplicate)), w1)
  else
    match saveValuesForKey key (existingValues ++ [newValue val user w]) w1 with
    | (Returned _, w2) => (Returned (mkResult true None), w2)
    | (Thrown _, w2) => (Returned (mkResult false (Some error)), w2)
    end.
Proof.
  intros Vk Vv. unfold addValueToKey. rewrite Vk, Vv. cbn [negb orb].
  rewrite tryCatch_run, bind_run, getEntryForKey_run, Vk. cbn [negb].
  cbv zeta. rewrite normalizeValue_trim.
  fold (sameValue val).
  destruct (existsb (sameValue val) _); [reflexivity|].
  rewrite bind_run. unfold nowISO at 1. rewrite bind_run.
  unfold newValue. rewrite answered_clock.
  destruct (saveValuesForKey _ _ _) as [[[]|e] w2]; reflexivity.
Qed.

Lemma add_added (key val : jsstring) (user : IUser) (w w' : World) :
  addValueToKey key val user w = (Returned (mkResult true None), w') ->
  isValidKey key = true /\ isValidValue val = true /\
  exists existingValues,
    existsb (sameValue val) existingValues = false /\
    db w' = <[normalizeKey key := [mkEntry (existingValues ++ [newValue val user w])]]>
              (delete (normalizeKey key) (db w)).
Proof.
  intros A.
  destruct (isValidKey key && isValidValue val) eqn:V.
  2:{ rewrite addValueToKey_invalid in A by assumption. discriminate. }
  apply andb_true_iff in V as [Vk Vv]. split; [assumption|]. split; [assumption|].
  rewrite addValueToKey_run in A by assumption. cbv zeta in A.
  match type of A with
  | (if existsb _ ?l then _ else _) = _ => exists l
  end.
  destruct (existsb _ _); [discriminate|]. split; [reflexivity|].
  rewrite saveValuesForKey_run in A by assumption. cbv zeta in A.
  destruct (nextRaises _); [discriminate|].
  destruct (nextRaises _); [discriminate|].
  injection A as <-. reflexivity.
Qed.

Lemma stored_insert (m : gmap (list N) (list GlossaryEntry)) (association : jsstring)
    (items : list GlossaryValue) (item : GlossaryValue) (more : list GlossaryEntry) :
  stored (<[association := mkEntry (items ++ [item]) :: more]> m) association
  = Some (items ++ [item]).
Proof.
  unfold stored. rewrite lookup_insert_eq. cbn [default values].
  destruct items; reflexivity.
Qed.

Lemma filter_none {A} (f : A -> bool) (l : list A) :
  existsb f l = false -> List.filter f l = [].
Proof.
  induction l as [|x l IH]; simpl; [reflexivity|].
  destruct (f x); simpl; [discriminate|]. exact IH.
Qed.

(** ** C1 *)

(** C1. Once [addValueToKey key v] has returned Added, a second call with a
    key that normalizes like [key] and a value [v'] that normalizes like [v],
    made on that store with a read that does not raise, returns Duplicate and
    leaves the store as it was; the entry of the key then holds exactly one
    value that normalizes like [v]. *)
Theorem add_idempotent (key key' v v' : jsstring) (user user' : IUser)
    (w w1 w2 : World) :
  addValueToKey key v user w = (Returned (mkResult true None), w1) ->
  normalizeKey key' = normalizeKey key ->
  normalizeValue v' = normalizeValue v ->
  db w2 = db w1 ->
  nextRaises w2 = None ->
  exists w3 items,
    addValueToKey key' v' user' w2 = (Returned (mkResult false (Some duplicate)), w3)
    /\ db w3 = db w1
    /\ stored (db w3) (normalizeKey key) = Some items
    /\ length (List.filter (sameValue v) items) = 1.
Proof.
  intros A Hk Hv D R.
  apply add_added in A as (Vk & Vv & existing & Dup & Db).
  assert (isValidKey key' = true) as Vk'
    by (unfold isValidKey in *; now rewrite Hk).
  assert (isValidValue v' = true) as Vv'
    by (unfold isValidValue in *; now rewrite Hv).
  assert (stored (db w2) (normalizeKey key) = Some (existing ++ [newValue v user w]))
    as St by (rewrite D, Db; apply stored_insert).
  rewrite addValueToKey_run by assumption. cbv zeta.
  rewrite Hk, R, St. cbn [default]. unfold id.
  assert (sameValue v (newValue v user w) = true) as Same.
  { unfold sameValue, newValue. cbn [value].
    rewrite normalizeValue_trim. apply eqb_refl. }
  assert (existsb (sameValue v') (existing ++ [newValue v user w]) = true) as E.
  { rewrite existsb_app. apply orb_true_iff. right.
    cbn [existsb]. unfold sameValue in *. rewrite Hv, Same. reflexivity. }
  rewrite E.
  eexists _, _. split; [reflexivity|].
  rewrite answered_db. split; [assumption|]. split; [exact St|].
  rewrite List.filter_app, (filter_none _ _ Dup). cbn [List.filter].
  rewrite Same. reflexivity.
Qed.

(** ** The store never holds an empty entry *)

Lemma nonEmpty_delete (m : gmap (list N) (list GlossaryEntry)) (association : jsstring) :
  nonEmptyEntries m -> nonEmptyEntries (delete association m).
Proof.
  intros I k records entry L. apply lookup_delete_Some in L as [_ L].
  now apply (I k).
Qed.

Lemma nonEmpty_insert (m : gmap (list N) (list GlossaryEntry)) (association : jsstring)
    (records : list GlossaryEntry) :
  nonEmptyEntries m ->
  (forall entry, In entry records -> values entry <> []) ->
  nonEmptyEntries (<[association := records]> m).
Proof.
  intros I R k records' entry L.
  apply lookup_insert_Some in L as [[_ <-] | [_ L]]; [apply R|now apply (I k)].
Qed.

Lemma keeps_ret {A} (a : A) : keepsNonEmpty (ret a).
Proof. intros w I. exact I. Qed.

Lemma keeps_throw {A} (e : Error) : keepsNonEmpty (@throw A e).
Proof. intros w I. exact I. Qed.

Lemma keeps_bind {A B} (m : Async A) (k : A -> Async B) :
  keepsNonEmpty m -> (forall a, keepsNonEmpty (k a)) -> keepsNonEmpty (bind m k).
Proof.
  intros Km Kk w I. rewrite bind_run. specialize (Km w I).
  destruct (m w) as [[a|e] w1]; [now apply Kk|exact Km].
Qed.

Lemma keeps_tryCatch {A} (body : Async A) (handler : Error -> Async A) :
  keepsNonEmpty body -> (forall e, keepsNonEmpty (handler e)) ->
  keepsNonEmpty (tryCatch body handler).
Proof.
  intros Kb Kh w I. rewrite tryCatch_run. specialize (Kb w I).
  destruct (body w) as [[a|e] w1]; [exact Kb|now apply Kh].
Qed.

Lemma keeps_getEntryForKey (key : jsstring) : keepsNonEmpty (getEntryForKey key).
Proof.
  intros w I. rewrite getEntryForKey_run.
  now destruct (negb (isValidKey key)).
Qed.

Lemma keeps_removeByAssociation (association : jsstring) :
  keepsNonEmpty (removeByAssociation association).
Proof.
  intros w I. rewrite removeByAssociation_run.
  destruct (nextRaises w); [exact I|]. now apply nonEmpty_delete.
Qed.

Lemma keeps_saveValuesForKey (key : jsstring) (vs : list GlossaryValue) :
  vs <> [] -> keepsNonEmpty (saveValuesForKey key vs).
Proof.
  intros V w I. destruct (isValidKey key) eqn:Vk.
  - rewrite saveValuesForKey_run by assumption. cbv zeta.
    destruct (nextRaises w); [exact I|].
    destruct (nextRaises _); cbn [snd]; [now apply nonEmpty_delete|].
    apply nonEmpty_insert; [now apply nonEmpty_delete|].
    intros entry [<-|[]]. exact V.
  - unfold saveValuesForKey. rewrite Vk. exact I.
Qed.

Lemma keeps_addValueToKey (key val : jsstring) (user : IUser) :
  keepsNonEmpty (addValueToKey key val user).
Proof.
  unfold addValueToKey.
  destruct (negb (isValidKey key) || negb (isValidValue val)); [apply keeps_ret|].
  apply keeps_tryCatch; [|intros; apply keeps_ret].
  apply keeps_bind; [apply keeps_getEntryForKey|]. intros entry.
  destruct (existsb _ _); [apply keeps_ret|].
  apply keeps_bind; [intros w I; exact I|]. intros iso.
  apply keeps_bind; [|intros; apply keeps_ret].
  apply keeps_saveValuesForKey. now destruct (default [] entry).
Qed.

Lemma keeps_removeKey (key : jsstring) : keepsNonEmpty (removeKey key).
Proof.
  unfold removeKey. destruct (negb (isValidKey key)); [apply keeps_ret|].
  apply keeps_bind; [apply keeps_getEntryForKey|]. intros [items|];
    [|apply keeps_ret].
  apply keeps_tryCatch; [|intros; apply keeps_ret].
  apply keeps_bind; [apply keeps_removeByAssociation|intros; apply keeps_ret].
Qed.

Lemma keeps_removeValueForKey (key val : jsstring) :
  keepsNonEmpty (removeValueForKey key val).
Proof.
  unfold removeValueForKey.
  destruct (negb (isValidKey key) || negb (isValidValue val)); [apply keeps_ret|].
  apply keeps_bind; [apply keeps_getEntryForKey|]. intros [[|item items]|];
    try apply keeps_ret.
  destruct (_ =? _)%nat; [apply keeps_ret|].
  apply keeps_tryCatch; [|intros; apply keeps_ret].
  apply keeps_bind; [|intros; apply keeps_ret].
  destruct (List.filter _ _) eqn:F;
    [apply keeps_removeByAssociation|now apply keeps_saveValuesForKey].
Qed.

Lemma removeValueForKey_run (key val : jsstring) (w : World) :
  isValidKey key = true -> isValidValue val = true ->
  removeValueForKey key val w =
  let association := normalizeKey key in
  let w1 := answered (ReadByAssociation association) w in
  match (match nextRaises w with
         | Some _ => None
         | None => stored (db w) association
         end) with
  | None | Some [] => (Returned false, w1)
  | Some items =>
    if (length (kept val items) =? length items)%nat then (Returned false, w1)
    else
      match kept val items with
      | [] =>
        match nextRaises w1 with
        | Some _ => (Returned false, answered (RemoveByAssociation association) w1)
        | None =>
          (Returned true,
           setDb (delete association)
                 (answered (RemoveByAssociation association) w1))
        end
      | filtered =>
        match saveValuesForKey key filtered w1 with
        | (Returned _, w2) => (Returned true, w2)
        | (Thrown _, w2) => (Returned false, w2)
        end
      end
  end.
Proof.
  intros Vk Vv. unfold removeValueForKey. rewrite Vk, Vv. cbn [negb orb].
  rewrite bind_run, getEntryForKey_run, Vk. cbn [negb]. cbv zeta.
  destruct (match nextRaises w with Some _ => None | None => _ end)
    as [[|item items]|]; try reflexivity.
  fold (kept val (item :: items)).
  destruct (_ =? _)%nat; [reflexivity|].
  rewrite tryCatch_run, bind_run.
  destruct (kept val (item :: items)) as [|item' filtered].
  - unfold getAssociationForKey. rewrite removeByAssociation_run.
    destruct (nextRaises _); reflexivity.
  - destruct (saveValuesForKey _ _ _) as [[[]|e] w2]; reflexivity.
Qed.

Lemma remove_only_value (key val : jsstring) (item : GlossaryValue) (w w' : World) :
  stored (db w) (normalizeKey key) = Some [item] ->
  removeValueForKey key val w = (Returned true, w') ->
  db w' !! normalizeKey key = None.
Proof.
  intros St Rm.
  destruct (isValidKey key) eqn:Vk.
  2:{ unfold removeValueForKey in Rm. rewrite Vk in Rm. discriminate. }
  destruct (isValidValue val) eqn:Vv.
  2:{ unfold removeValueForKey in Rm. rewrite Vk, Vv in Rm. discriminate. }
  rewrite removeValueForKey_run in Rm by assumption. cbv zeta in Rm.
  destruct (nextRaises w); [discriminate|]. rewrite St in Rm.
  destruct (kept val [item]) as [|item' filtered] eqn:K.
  - cbn [length Nat.eqb] in Rm.
    destruct (nextRaises _); [discriminate|]. injection Rm as <-.
    unfold setDb. cbn [db]. apply lookup_delete_eq.
  - assert (length (item' :: filtered) = 1) as L.
    { unfold kept in K. cbn [List.filter] in K.
      destruct (if negb _ then _ else _) in K; [|discriminate].
      now injection K as <- <-. }
    rewrite L in Rm. discriminate.
Qed.

Lemma getEntryForKey_absent (key : jsstring) (w : World) :
  db w !! normalizeKey key = None -> fst (getEntryForKey key w) = Returned None.
Proof.
  intros L. rewrite getEntryForKey_run.
  destruct (negb (isValidKey key)); [reflexivity|]. cbn [fst].
  destruct (nextRaises w); [reflexivity|].
  unfold stored. now rewrite L.
Qed.

(** ** C2 *)

(** C2. Whatever the host raises, [addValueToKey], [removeValueForKey] and
    [removeKey] leave no record with an empty list of values in a store that
    had none; removing the only value of a key deletes its entry, and
    [getEntryForKey] on that key then returns [null]; [getEntryForKey] never
    returns an empty list. *)
Theorem never_empty_entry :
  (forall key val user, keepsNonEmpty (addValueToKey key val user))
  /\ (forall key val, keepsNonEmpty (removeValueForKey key val))
  /\ (forall key, keepsNonEmpty (removeKey key))
  /\ (forall key val item w w',
        stored (db w) (normalizeKey key) = Some [item] ->
        removeValueForKey key val w = (Returned true, w') ->
        db w' !! normalizeKey key = None
        /\ forall w'', db w'' = db w' ->
                       fst (getEntryForKey key w'') = Returned None)
  /\ (forall key w, fst (getEntryForKey key w) <> Returned (Some [])).
Proof.
  split; [exact keeps_addValueToKey|].
  split; [exact keeps_removeValueForKey|].
  split; [exact keeps_removeKey|].
  split; [|exact getEntryForKey_not_empty].
  intros key val item w w' St Rm.
  pose proof (remove_only_value key val item w w' St Rm) as L.
  split; [exact L|].
  intros w'' D. apply getEntryForKey_absent. now rewrite D.
Qed.

(** ** The entry guard and the dispatcher *)

Lemma getCommandType_trim (t : jsstring) : getCommandType (trim t) = getCommandType t.
Proof.
  unfold getCommandType, matchesCommand, isCommand. now rewrite !trim_idem.
Qed.

Lemma messageText_eq (message : IMessage) :
  messageText message = trim (default [] (text message)).
Proof. unfold messageText. apply orElse_nil. Qed.

Lemma getAppUser_run (w : World) :
  getAppUser w =
  (match nextRaises w with
   | Some e => Thrown e
   | None => Returned (appUser w)
   end, answered GetAppUser w).
Proof.
  unfold getAppUser. rewrite bind_run, hostCall_run.
  destruct (nextRaises w); reflexivity.
Qed.

Lemma shouldProcessMessage_true (message : IMessage) (w w1 : World) :
  shouldProcessMessage message w = (Returned true, w1) ->
  room_type (room message) = ROOM_TYPE_DIRECT
  /\ truthy (trim (default [] (text message))) = true
  /\ w1 = answered GetAppUser w
  /\ exists b, appUser w = Some b /\ user_id (sender message) <> user_id b.
Proof.
  unfold shouldProcessMessage.
  destruct (eqb (room_type (room message)) ROOM_TYPE_DIRECT) eqn:R;
    cbn [negb]; [|discriminate].
  apply eqb_true in R.
  rewrite bind_run, getAppUser_run.
  destruct (nextRaises w); [discriminate|].
  destruct (appUser w) as [b|]; [|discriminate].
  destruct (eqb (user_id (sender message)) (user_id b)) eqn:S; [discriminate|].
  apply eqb_false in S.
  destruct (truthy (trim (default [] (text message)))); cbn [negb];
    [|discriminate].
  intros E. injection E as <-. repeat split; try assumption. now exists b.
Qed.

Lemma dispatch_search (message : IMessage) (w w1 : World) :
  shouldProcessMessage message w = (Returned true, w1) ->
  getCommandType (messageText message) = None ->
  executePostMessageSent message w
  = handleKeySearch (messageText message) (room message) w1.
Proof.
  intros G C. unfold executePostMessageSent.
  rewrite bind_run, G. cbn [negb]. now rewrite C.
Qed.

(** ** C3 *)

(** C3. [getCommandType] returns the command [c] exactly when the trimmed
    text is ['!'], the word of [c], and then the end of the text or a white
    space character; the words are tried in the order add, multi-add, remove,
    details, help and the first match wins; a text that matches none is not
    a command, and a message with that text is handled as a search for the
    whole trimmed text.  ['!addendum'] is not a command and
    ['!add key:value'] is [add]. *)
Theorem command_classification (t : jsstring) :
  (forall c, getCommandType t = Some c <-> isCommandText t c)
  /\ getCommandType t = find (fun c => matchesCommand t (COMMANDS c)) priority
  /\ (getCommandType t = None <-> forall c, ~ isCommandText t c)
  /\ (forall message w w1,
        text message = Some t ->
        shouldProcessMessage message w = (Returned true, w1) ->
        getCommandType t = None ->
        executePostMessageSent message w
        = handleKeySearch (trim t) (room message) w1)
  /\ getCommandType (lit "!addendum") = None
  /\ getCommandType (lit "!add key:value") = Some ADD.
Proof.
  split; [intros c; apply getCommandType_iff|].
  split; [apply getCommandType_priority|].
  split; [apply getCommandType_none|].
  split; [|split; reflexivity].
  intros message w w1 T G C.
  assert (messageText message = trim t) as M
    by (rewrite messageText_eq, T; reflexivity).
  rewrite <- M. apply dispatch_search; [assumption|].
  now rewrite M, getCommandType_trim.
Qed.

(** ** C6 *)

(** C6. A message that is not in a direct room, or whose sender is the bot
    itself, or whose text is empty once trimmed, is dropped:
    [executePostMessageSent] leaves the outbox and the store as they were and
    calls nothing of the host but the lookup of the bot's own user. *)
Theorem silent_ignore (message : IMessage) (w : World) :
  room_type (room message) <> ROOM_TYPE_DIRECT
  \/ (exists b, appUser w = Some b /\ user_id (sender message) = user_id b)
  \/ trim (default [] (text message)) = [] ->
  let w' := snd (executePostMessageSent message w) in
  outbox w' = outbox w
  /\ db w' = db w
  /\ Forall (fun call => fst call = GetAppUser) (callsBetween w w').
Proof.
  intros G. cbv zeta. unfold executePostMessageSent, shouldProcessMessage.
  rewrite bind_run.
  destruct (eqb (room_type (room message)) ROOM_TYPE_DIRECT) eqn:R; cbn [negb].
  2:{ cbn [ret snd]. rewrite callsBetween_refl. now repeat split. }
  apply eqb_true in R. rewrite bind_run, getAppUser_run.
  assert (outbox (answered GetAppUser w) = outbox w
          /\ db (answered GetAppUser w) = db w
          /\ Forall (fun call => fst call = GetAppUser)
                    (callsBetween w (answered GetAppUser w))) as Done.
  { rewrite callsBetween_answered. repeat split. now constructor. }
  destruct (nextRaises w); [exact Done|].
  destruct (appUser w) as [b|] eqn:B; [|exact Done].
  destruct (eqb (user_id (sender message)) (user_id b)) eqn:S; [exact Done|].
  apply eqb_false in S.
  destruct (truthy (trim (default [] (text message)))) eqn:T; cbn [negb];
    [|exact Done].
  exfalso. destruct G as [G | [(b' & B' & G) | G]].
  - contradiction.
  - injection B' as <-. contradiction.
  - rewrite G in T. discriminate.
Qed.

(** ** C10 *)

(** C10. Command words are matched with their case: when the trimmed text
    is ['!'] followed by a spelling of a command word that has a letter in
    upper case, [getCommandType] returns [null], and a message with that
    text is handled as a search for the whole trimmed text, its ['!']
    included. *)
Theorem command_words_case_sensitive (t w rest : jsstring) (c : CommandType) :
  respelling w (COMMANDS c) ->
  trim t = COMMAND_PREFIX ++ w ++ rest ->
  getCommandType t = None
  /\ forall message wd wd1,
       text message = Some t ->
       shouldProcessMessage message wd = (Returned true, wd1) ->
       executePostMessageSent message wd
       = handleKeySearch (COMMAND_PREFIX ++ w ++ rest) (room message) wd1.
Proof.
  intros R T.
  pose proof (respelling_unclassified t w rest c R T) as G.
  split; [exact G|].
  intros message wd wd1 M S.
  assert (messageText message = trim t) as E
    by (rewrite messageText_eq, M; reflexivity).
  rewrite <- T, <- E. apply dispatch_search; [assumption|].
  now rewrite E, getCommandType_trim.
Qed.

(** ** Parsing a key:value pair *)

Section LowerCase.

(** Lower-casing makes no string empty and leaves the empty string empty. *)
Hypothesis toLowerCase_empty : forall s : jsstring, toLowerCase s = [] <-> s = [].

Lemma isValidKey_iff (key : jsstring) : isValidKey key = truthy (trim key).
Proof.
  unfold isValidKey, normalizeKey. rewrite orElse_nil.
  destruct (trim key) as [|c s] eqn:E.
  - now rewrite (proj2 (toLowerCase_empty [])).
  - destruct (toLowerCase (c :: s)) eqn:L; [|reflexivity].
    apply (proj1 (toLowerCase_empty _)) in L. discriminate L.
Qed.

Lemma isValidValue_iff (val : jsstring) : isValidValue val = truthy (trim val).
Proof. exact (isValidKey_iff val). Qed.

Lemma parseKeyValue_part_000 (t : jsstring) :
  parseKeyValue t = Part000.parseKeyValue t.
Proof.
  unfold parseKeyValue, Part000.parseKeyValue.
  rewrite isValidKey_iff, isValidValue_iff, !trim_idem.
  pose proof (indexOf_lower t 58%N) as Lo.
  destruct t as [|c t]; [reflexivity|]. cbn [truthy negb].
  destruct (Z.leb_spec (indexOf (c :: t) 58%N) 0) as [Le|Gt].
  - destruct (Z.eqb_spec (indexOf (c :: t) 58%N) (-1)) as [_|Ne]; [reflexivity|].
    replace (indexOf (c :: t) 58%N) with 0%Z by lia.
    reflexivity.
  - destruct (Z.eqb_spec (indexOf (c :: t) 58%N) (-1)) as [E|_]; [lia|].
    reflexivity.
Qed.

Lemma parseKeyValue_split (before after : jsstring) :
  ~ In 58%N before ->
  parseKeyValue (before ++ 58%N :: after) =
  if truthy (trim before) && truthy (trim after)
  then Some (mkPair (trim before) (trim after))
  else None.
Proof.
  intros Hn. unfold parseKeyValue.
  rewrite isValidKey_iff, isValidValue_iff, !trim_idem.
  rewrite indexOf_first by assumption.
  rewrite substring_before, substring_after.
  replace (truthy (before ++ 58%N :: after)) with true by (now destruct before).
  cbn [negb].
  destruct before as [|c before]; [reflexivity|].
  cbn [length]. rewrite Nat2Z.inj_succ.
  destruct (Z.leb_spec (Z.succ (Z.of_nat (length before))) 0) as [Le|_]; [lia|].
  destruct (truthy (trim (c :: before))), (truthy (trim after)); reflexivity.
Qed.

Lemma parseKeyValue_no_colon (t : jsstring) :
  ~ In 58%N t -> parseKeyValue t = None.
Proof.
  intros Hn. unfold parseKeyValue.
  destruct (truthy t); [|reflexivity]. cbn [negb].
  now rewrite indexOf_absent.
Qed.

(** ** C4 *)

(** C4. [parseKeyValue] splits at the first colon: when the colon is not the
    first character and both sides are non-empty once trimmed, it returns the
    two trimmed sides; without a colon, with the colon first, or with a side
    that trims to nothing, it returns [null].  The earlier revision of the
    function returns the same. *)
Theorem parseKeyValue_spec (t : jsstring) :
  (forall before after,
     t = before ++ 58%N :: after -> ~ In 58%N before ->
     before <> [] -> trim before <> [] -> trim after <> [] ->
     parseKeyValue t = Some (mkPair (trim before) (trim after)))
  /\ (~ In 58%N t -> parseKeyValue t = None)
  /\ (forall after, t = 58%N :: after -> parseKeyValue t = None)
  /\ (forall before after,
        t = before ++ 58%N :: after -> ~ In 58%N before ->
        trim before = [] \/ trim after = [] ->
        parseKeyValue t = None)
  /\ Part000.parseKeyValue t = parseKeyValue t.
Proof.
  split; [|split; [|split; [|split]]].
  - intros before after -> Hn _ Hb Ha. rewrite parseKeyValue_split by assumption.
    destruct (trim before); [contradiction|].
    destruct (trim after); [contradiction|]. reflexivity.
  - apply parseKeyValue_no_colon.
  - intros after ->. now apply (parseKeyValue_split [] after).
  - intros before after -> Hn E. rewrite parseKeyValue_split by assumption.
    destruct E as [-> | ->]; [reflexivity|]. cbn [truthy].
    now rewrite andb_false_r.
  - symmetry. apply parseKeyValue_part_000.
Qed.

(** ** Searching a key *)

Lemma getValuesForKey_run (key : jsstring) (w : World) :
  getValuesForKey key w =
  (Returned (option_map (fun items => List.filter truthy (map value items))
                        (if negb (isValidKey key) then None
                         else match nextRaises w with
                              | Some _ => None
                              | None => stored (db w) (normalizeKey key)
                              end)),
   snd (getEntryForKey key w)).
Proof.
  unfold getValuesForKey. rewrite bind_run, getEntryForKey_run.
  destruct (negb (isValidKey key)); [reflexivity|]. cbn [snd].
  destruct (match nextRaises w with Some _ => None | None => _ end);
    reflexivity.
Qed.

Lemma mapIndexed_length {A B} (f : A -> nat -> B) (index : nat) (l : list A) :
  length (mapIndexed f index l) = length l.
Proof.
  revert index. induction l as [|x l IH]; intros index; simpl; [reflexivity|].
  now rewrite IH.
Qed.

Lemma mapIndexed_lookup {A B} (f : A -> nat -> B) (index : nat) (l : list A)
    (i : nat) (x : A) :
  l !! i = Some x -> mapIndexed f index l !! i = Some (f x (index + i)).
Proof.
  revert index i. induction l as [|y l IH]; intros index i L; [discriminate|].
  destruct i as [|i]; simpl in *.
  - injection L as ->. now rewrite Nat.add_0_r.
  - rewrite (IH (S index) i L). f_equal. f_equal. lia.
Qed.

(** ** C9 *)

(** C9. A message that passes the guard and is no command is a search for
    its whole trimmed text.  The values found are the non-empty stored values
    in stored order, and nothing has been sent when they are found.  One
    value: the reply is the singular template; several: the plural template
    with their count and one numbered line per value, in that order; none: the
    reply is the not-found template, which contains ['!add <key>: <...>'] with
    the searched key in it.  The reply is the one text added to the outbox of
    the room, unless the host's [finish] raises. *)
Theorem search_fallback (message : IMessage) (w w1 : World) :
  shouldProcessMessage message w = (Returned true, w1) ->
  getCommandType (messageText message) = None ->
  let key := trim (default [] (text message)) in
  let run := executePostMessageSent message w in
  exists found w2,
    getValuesForKey key w1 = (Returned found, w2)
    /\ (nextRaises w1 = None ->
        found = option_map (fun items => List.filter truthy (map value items))
                           (stored (db w1) (normalizeKey key)))
    /\ outbox w2 = outbox w
    /\ match found with
       | Some [v] =>
         repliedWith (room message)
           (lit "*Ключ:* " ++ key ++ nl ++ lit "*Значение:* " ++ v) w2 run
       | Some (v :: v' :: more) =>
         let vs := v :: v' :: more in
         exists lines,
           repliedWith (room message)
             (lit "*Ключ:* " ++ key ++ nl ++ lit "*Значения ("
              ++ digitsOf (length vs) ++ lit "):*" ++ nl ++ join nl lines) w2 run
           /\ length lines = length vs
           /\ forall i x, vs !! i = Some x ->
                          lines !! i = Some (digitsOf (i + 1) ++ lit ". " ++ x)
       | _ =>
         repliedWith (room message) (MESSAGES.KEY_NOT_FOUND_SEARCH key) w2 run
         /\ includes (MESSAGES.KEY_NOT_FOUND_SEARCH key)
                     (lit "!add " ++ key ++ lit ": <ваше значение>") = true
       end.
Proof.
  intros G C. cbv zeta.
  rewrite (dispatch_search message w w1 G C), messageText_eq.
  apply shouldProcessMessage_true in G as (_ & T & -> & _).
  set (key := trim (default [] (text message))) in *.
  assert (isValidKey key = true) as V.
  { rewrite isValidKey_iff. unfold key. now rewrite trim_idem. }
  eexists _, _. split; [apply getValuesForKey_run|].
  rewrite V. cbn [negb]. split.
  { now intros ->. }
  split; [now rewrite getEntryForKey_run, V|].
  unfold handleKeySearch. rewrite V. cbn [negb].
  rewrite bind_run, getValuesForKey_run, V. cbn [negb].
  set (found := option_map _ _).
  assert (includes (MESSAGES.KEY_NOT_FOUND_SEARCH key)
                   (lit "!add " ++ key ++ lit ": <ваше значение>") = true) as I.
  { unfold MESSAGES.KEY_NOT_FOUND_SEARCH.
    set (needle := lit "!add " ++ key ++ lit ": <ваше значение>").
    replace (lit "Значение для ключа " ++ dq ++ lit "*" ++ key ++ lit "*" ++ dq
             ++ lit " не найдено." ++ nl ++ nl
             ++ lit "Чтобы добавить значение, используйте команду:" ++ nl
             ++ lit "`!add " ++ key ++ lit ": <ваше значение>`")
      with ((lit "Значение для ключа " ++ dq ++ lit "*" ++ key ++ lit "*" ++ dq
             ++ lit " не найдено." ++ nl ++ nl
             ++ lit "Чтобы добавить значение, используйте команду:" ++ nl
             ++ lit "`") ++ needle ++ lit "`").
    - apply includes_app.
    - unfold needle. rewrite <- !app_assoc. reflexivity. }
  assert (forall w', repliedWith (room message) (MESSAGES.KEY_NOT_FOUND_SEARCH key)
                       w' (sendMessage (room message)
                             (MESSAGES.KEY_NOT_FOUND_SEARCH key) w')) as Nf.
  { intros w'. apply sendMessage_repliedWith.
    unfold MESSAGES.KEY_NOT_FOUND_SEARCH. nonblank. }
  destruct found as [[|v [|v' more]]|]; try (split; [apply Nf|exact I]).
  - apply sendMessage_repliedWith. nonblank.
  - cbv zeta. unfold sendValuesToUser, formatValuesForDisplay.
    eexists. split; [apply sendMessage_repliedWith; nonblank|].
    split; [apply mapIndexed_length|].
    intros i x L. now rewrite (mapIndexed_lookup _ 0 _ i x L).
Qed.

End LowerCase.

(** ** Nothing is thrown out of the store operations *)

Lemma neverThrows_ret {A} (a : A) : neverThrows (ret a).
Proof. intros w. now exists a, w. Qed.

Lemma neverThrows_bind {A B} (m : Async A) (k : A -> Async B) :
  neverThrows m -> (forall a, neverThrows (k a)) -> neverThrows (bind m k).
Proof.
  intros Nm Nk w. rewrite bind_run.
  destruct (Nm w) as (a & w1 & ->). apply Nk.
Qed.

Lemma neverThrows_tryCatch {A} (body : Async A) (handler : Error -> Async A) :
  (forall e, neverThrows (handler e)) -> neverThrows (tryCatch body handler).
Proof.
  intros Nh w. rewrite tryCatch_run.
  destruct (body w) as [[a|e] w1]; [now exists a, w1|apply Nh].
Qed.

Lemma neverThrows_sendMessage (r : IRoom) (t : jsstring) :
  neverThrows (sendMessage r t).
Proof.
  intros w. rewrite sendMessage_run.
  destruct (negb (truthy (trim t))); eexists _, _; reflexivity.
Qed.

Lemma neverThrows_getEntryForKey (key : jsstring) : neverThrows (getEntryForKey key).
Proof.
  intros w. rewrite getEntryForKey_run.
  destruct (negb (isValidKey key)); eexists _, _; reflexivity.
Qed.

Lemma neverThrows_addValueToKey (key val : jsstring) (user : IUser) :
  neverThrows (addValueToKey key val user).
Proof.
  unfold addValueToKey.
  destruct (negb (isValidKey key) || negb (isValidValue val));
    [apply neverThrows_ret|].
  apply neverThrows_tryCatch. intros e. apply neverThrows_ret.
Qed.

Lemma neverThrows_handleAddCommand (message : IMessage) :
  neverThrows (handleAddCommand message).
Proof.
  unfold handleAddCommand. cbv zeta.
  destruct (parseKeyValue _); [|apply neverThrows_sendMessage].
  apply neverThrows_bind; [apply neverThrows_addValueToKey|].
  intros result. apply neverThrows_sendMessage.
Qed.

(** ** Multi-add *)

Lemma collect_pairs (lines : list jsstring) (acc : list KeyValuePair) :
  fold_left
    (fun pairs line =>
       match parseKeyValue (cleanLine line) with
       | Some kv => pairs ++ [kv]
       | None => pairs
       end) lines acc
  = acc ++ omap (fun line => parseKeyValue (cleanLine line)) lines.
Proof.
  revert acc. induction lines as [|line lines IH]; intros acc.
  - cbn. now rewrite app_nil_r.
  - cbn [fold_left]. rewrite IH. unfold omap at 2. cbn [list_omap].
    destruct (parseKeyValue (cleanLine line)); [|reflexivity].
    now rewrite <- app_assoc.
Qed.

Lemma parseMultiAdd_omap (payload : jsstring) :
  parseMultiAdd payload
  = omap (fun line => parseKeyValue (cleanLine line)) (payloadLines payload).
Proof.
  unfold parseMultiAdd, payloadLines.
  rewrite (List.filter_ext (fun line => (0 <? length line)%nat) truthy)
    by (now intros []).
  apply collect_pairs.
Qed.

Lemma addAll_addEach (pairs : list KeyValuePair) (user : IUser) (c : Tally)
    (w : World) :
  addAll pairs user c w =
  match addEach pairs user w with
  | (Returned results, w') =>
    (Returned (fold_left (fun c result => count result c) results c), w')
  | (Thrown e, w') => (Thrown e, w')
  end.
Proof.
  revert c w. induction pairs as [|kv pairs IH]; intros c w; [reflexivity|].
  cbn [addAll addEach]. rewrite !bind_run.
  destruct (addValueToKey _ _ _ w) as [[result|e] w1]; [|reflexivity].
  rewrite IH, bind_run.
  destruct (addEach pairs user w1) as [[results|e] w2]; reflexivity.
Qed.

Lemma addEach_returns (pairs : list KeyValuePair) (user : IUser) (w : World) :
  exists results w',
    addEach pairs user w = (Returned results, w')
    /\ length results = length pairs.
Proof.
  revert w. induction pairs as [|kv pairs IH]; intros w.
  - now exists [], w.
  - cbn [addEach]. rewrite bind_run.
    destruct (neverThrows_addValueToKey (pair_key kv) (pair_value kv) user w)
      as (result & w1 & ->).
    rewrite bind_run. destruct (IH w1) as (results & w2 & -> & L).
    exists (result :: results), w2. split; [reflexivity|].
    cbn [length]. now rewrite L.
Qed.

Lemma addValueToKey_outbox (key val : jsstring) (user : IUser) (w : World) :
  outbox (snd (addValueToKey key val user w)) = outbox w.
Proof.
  destruct (isValidKey key && isValidValue val) eqn:V.
  2:{ now rewrite addValueToKey_invalid by assumption. }
  apply andb_true_iff in V as [Vk Vv].
  rewrite addValueToKey_run by assumption. cbv zeta.
  destruct (existsb _ _); [reflexivity|].
  rewrite saveValuesForKey_run by assumption. cbv zeta.
  destruct (nextRaises _); [reflexivity|].
  destruct (nextRaises _); reflexivity.
Qed.

Lemma addEach_outbox (pairs : list KeyValuePair) (user : IUser) (w : World) :
  outbox (snd (addEach pairs user w)) = outbox w.
Proof.
  revert w. induction pairs as [|kv pairs IH]; intros w; [reflexivity|].
  cbn [addEach]. rewrite bind_run.
  pose proof (addValueToKey_outbox (pair_key kv) (pair_value kv) user w) as O.
  destruct (addValueToKey _ _ _ w) as [[result|e] w1]; cbn [snd] in O;
    [|exact O].
  rewrite bind_run. specialize (IH w1).
  destruct (addEach pairs user w1) as [[results|e] w2]; unfold ret;
    cbn [snd] in *; congruence.
Qed.

Lemma tally_counts (results : list AddValueResult) (c : Tally) :
  fold_left (fun c result => count result c) results c
  = mkTally (t_added c + length (List.filter isAdded results))
            (t_duplicates c + length (List.filter isDuplicate results))
            (t_errors c + length (List.filter isError results)).
Proof.
  revert c. induction results as [|[a r] results IH]; intros [x y z].
  - cbn. now rewrite !Nat.add_0_r.
  - cbn [fold_left]. rewrite IH. unfold count, isAdded, isDuplicate, isError.
    cbn [added reason List.filter].
    destruct a, r as [[]|]; cbn [negb andb length t_added t_duplicates t_errors];
      f_equal; lia.
Qed.

Lemma outcomes_partition (results : list AddValueResult) :
  length (List.filter isAdded results) + length (List.filter isDuplicate results)
  + length (List.filter isError results) = length results.
Proof.
  induction results as [|[a r] results IH]; [reflexivity|].
  unfold isAdded, isDuplicate, isError in *. cbn [List.filter added reason].
  destruct a, r as [[]|]; cbn [negb andb length]; lia.
Qed.

(** ** C5 *)

(** C5. [parseMultiAdd] keeps the non-blank lines that parse and drops the
    others.  When no pair results, [handleMultiAddCommand] replies with the
    invalid-format message and leaves the store as it was.  Otherwise every
    pair goes through [addValueToKey], in order, whatever the earlier ones
    returned, and nothing is sent meanwhile; the three counters count the
    added, duplicate and failed pairs and sum to the number of pairs; the
    reply is the summary, which has the added count and, only when they are
    not zero, the duplicate and error counts.  The reply is the one text
    added to the outbox of the room, unless the host's [finish] raises. *)
Theorem multi_add (message : IMessage) (w : World) :
  let payload := extractCommandPayload (messageText message) (COMMANDS MULTI_ADD) in
  let pairs := parseMultiAdd payload in
  let run := handleMultiAddCommand message w in
  (forall t,
     parseMultiAdd t
     = omap (fun line => parseKeyValue (cleanLine line)) (payloadLines t))
  /\ (pairs = [] ->
      repliedWith (room message) MESSAGES.INVALID_MULTI_ADD_FORMAT w run
      /\ db (snd run) = db w)
  /\ (pairs <> [] ->
      exists results w1,
        addEach pairs (sender message) w = (Returned results, w1)
        /\ length results = length pairs
        /\ outbox w1 = outbox w
        /\ let c := mkTally (length (List.filter isAdded results))
                            (length (List.filter isDuplicate results))
                            (length (List.filter isError results)) in
           t_added c + t_duplicates c + t_errors c = length pairs
           /\ repliedWith (room message) (summary c) w1 run)
  /\ (forall c,
        summary c
        = (lit "✅ Добавлено значений: " ++ digitsOf (t_added c))
          ++ (if (0 <? t_duplicates c)%nat
              then nl ++ lit "⚠️ Пропущено дубликатов: " ++ digitsOf (t_duplicates c)
              else [])
          ++ (if (0 <? t_errors c)%nat
              then nl ++ lit "❌ Ошибок: " ++ digitsOf (t_errors c)
              else [])).
Proof.
  cbv zeta. split; [exact parseMultiAdd_omap|].
  split; [|split].
  - intros E. unfold handleMultiAddCommand. cbv zeta. rewrite E.
    split; [apply sendMessage_repliedWith; nonblank|apply sendMessage_db].
  - intros Ne. unfold handleMultiAddCommand. cbv zeta.
    destruct (parseMultiAdd _) as [|kv pairs] eqn:E; [contradiction|].
    destruct (addEach_returns (kv :: pairs) (sender message) w)
      as (results & w1 & A & L).
    exists results, w1. split; [exact A|]. split; [exact L|].
    split.
    { pose proof (addEach_outbox (kv :: pairs) (sender message) w) as O.
      now rewrite A in O. }
    cbn [t_added t_duplicates t_errors].
    split; [rewrite <- L; apply outcomes_partition|].
    rewrite bind_run, addAll_addEach, A, tally_counts.
    apply sendMessage_repliedWith, nonblank_summary.
  - intros [x y z]. unfold summary. cbn [t_added t_duplicates t_errors].
    destruct (0 <? y)%nat, (0 <? z)%nat; cbn [app join];
      rewrite <- ?app_assoc, ?app_nil_r; reflexivity.
Qed.

(** ** Faults of the persistence during an add *)

Lemma trace_setDb f (w : World) : trace (setDb f w) = trace w.
Proof. reflexivity. Qed.

Ltac calls_between :=
  unfold callsBetween;
  cbn [snd fst]; rewrite ?trace_setDb, ?answered_trace;
  rewrite ?trace_setDb, ?answered_trace; rewrite ?trace_setDb, ?answered_trace;
  rewrite <- ?app_assoc; rewrite ?drop_app_length, ?drop_all.

Ltac no_write :=
  let a := fresh in let e := fresh in let W := fresh in
  intros (a & e & W); cbn [In app] in W;
  repeat match type of W with
         | _ \/ _ => destruct W as [W|W]
         | _ = _ => discriminate W
         | False => contradiction
         end.

Lemma add_write_fault (key val : jsstring) (user : IUser) (w : World) :
  writeRaised (callsBetween w (snd (addValueToKey key val user w))) ->
  fst (addValueToKey key val user w) = Returned (mkResult false (Some error)).
Proof.
  destruct (isValidKey key && isValidValue val) eqn:V.
  2:{ now rewrite addValueToKey_invalid by assumption. }
  apply andb_true_iff in V as [Vk Vv].
  rewrite addValueToKey_run by assumption. cbv zeta.
  destruct (existsb _ _).
  { calls_between. no_write. }
  rewrite saveValuesForKey_run by assumption. cbv zeta.
  destruct (nextRaises (answered _ w)) eqn:R1; [reflexivity|].
  destruct (nextRaises (setDb _ _)) eqn:R2; [reflexivity|].
  rewrite nextRaises_setDb in R2.
  calls_between. rewrite nextRaises_setDb, R1, R2. no_write.
Qed.

Lemma addResponse_error (kv : KeyValuePair) :
  addResponse kv (mkResult false (Some error)) = MESSAGES.SAVE_ERROR.
Proof. reflexivity. Qed.

Lemma parseKeyValue_valid (t : jsstring) (kv : KeyValuePair) :
  parseKeyValue t = Some kv ->
  isValidKey (pair_key kv) = true /\ isValidValue (pair_value kv) = true.
Proof.
  unfold parseKeyValue. destruct (negb (truthy t)); [discriminate|].
  destruct (_ <=? _)%Z; [discriminate|].
  destruct (isValidKey _) eqn:Vk; [|discriminate].
  destruct (isValidValue _) eqn:Vv; [|discriminate].
  cbn [negb orb]. intros E. injection E as <-. now split.
Qed.

Lemma add_replies (message : IMessage) (w : World) :
  let run := handleAddCommand message w in
  outbox (snd run) = outbox w
  \/ exists t,
       outbox (snd run) = outbox w ++ [(room message, t)]
       /\ (t = MESSAGES.INVALID_ADD_FORMAT
           \/ exists kv,
                parseKeyValue
                  (extractCommandPayload (messageText message) (COMMANDS ADD))
                = Some kv
                /\ (t = MESSAGES.VALUE_ADDED (pair_key kv) (pair_value kv)
                    \/ t = MESSAGES.DUPLICATE_VALUE (pair_key kv)
                    \/ t = MESSAGES.SAVE_ERROR)).
Proof.
  cbv zeta. unfold handleAddCommand. cbv zeta.
  destruct (parseKeyValue _) as [kv|] eqn:P.
  - rewrite bind_run.
    pose proof (addValueToKey_outbox (pair_key kv) (pair_value kv)
                  (sender message) w) as O.
    destruct (neverThrows_addValueToKey (pair_key kv) (pair_value kv)
                (sender message) w) as (result & w1 & E).
    rewrite E in *. cbn [snd] in O.
    rewrite sendMessage_run, nonblank_addResponse. cbn [negb snd].
    destruct (nextRaises w1); [left; exact O|]. right.
    exists (addResponse kv result). split.
    + cbn [deliver outbox answered called]. now rewrite O.
    + right. exists kv. split; [reflexivity|]. unfold addResponse.
      destruct (added result); [now left|]. right.
      destruct (reason result) as [[]|]; auto.
  - rewrite sendMessage_run.
    destruct (negb (truthy (trim MESSAGES.INVALID_ADD_FORMAT)));
      [now left|]. cbn [snd].
    destruct (nextRaises w); [now left|]. right.
    exists MESSAGES.INVALID_ADD_FORMAT. split; [reflexivity|now left].
Qed.

Lemma add_read_fault (key val : jsstring) (user : IUser) (w : World) (e : Error) :
  isValidKey key = true -> isValidValue val = true ->
  nextRaises w = Some e ->
  let run := addValueToKey key val user w in
  ~ writeRaised (callsBetween w (snd run)) ->
  persistenceRaised (callsBetween w (snd run))
  /\ fst run = Returned (mkResult true None)
  /\ stored (db (snd run)) (normalizeKey key) = Some [newValue val user w].
Proof.
  intros Vk Vv R. cbv zeta.
  rewrite addValueToKey_run by assumption. cbv zeta. rewrite R.
  cbn [default existsb app].
  rewrite saveValuesForKey_run by assumption. cbv zeta.
  destruct (nextRaises (answered _ w)) as [e1|] eqn:R1.
  { intros W. exfalso. apply W. exists (normalizeKey key), e1. left.
    calls_between. rewrite R1. cbn [In app]. auto. }
  destruct (nextRaises (setDb _ _)) as [e2|] eqn:R2.
  { intros W. exfalso. apply W. exists (normalizeKey key), e2. right.
    rewrite nextRaises_setDb in R2.
    calls_between. rewrite nextRaises_setDb, R1, R2. cbn [In app]. auto. }
  intros _. cbn [fst snd]. split; [|split; [reflexivity|]].
  - exists (normalizeKey key), e. left. calls_between. rewrite R.
    cbn [In app]. auto.
  - unfold setDb at 1. cbn [db].
    apply (stored_insert _ (normalizeKey key) [] (newValue val user w) []).
Qed.

(** ** C7 *)

(** C7. Of what the claim says, this much holds of the code.
    [addValueToKey] and [handleAddCommand] return whatever the host raises.
    Whatever the host raises, [!add] sends nothing or one text, and that text
    is one of four templates filled with the key and the value of the
    message: no detail of a fault is in it.  When a write of the persistence
    ([removeByAssociation] or [createWithAssociation]) raises during
    [addValueToKey], the result is Error and the reply is the save-error
    template.  The claim fails for the read.  When the read raises and the
    writes that follow do not, the result is Added, not Error, the entry of
    the key then holds the new value alone, whatever it held before, and the
    reply is the added message. *)
Theorem add_fault_handling :
  (forall key val user, neverThrows (addValueToKey key val user))
  /\ (forall message, neverThrows (handleAddCommand message))
  /\ (forall message w,
        let run := handleAddCommand message w in
        outbox (snd run) = outbox w
        \/ exists t,
             outbox (snd run) = outbox w ++ [(room message, t)]
             /\ (t = MESSAGES.INVALID_ADD_FORMAT
                 \/ exists kv,
                      parseKeyValue
                        (extractCommandPayload (messageText message)
                           (COMMANDS ADD))
                      = Some kv
                      /\ (t = MESSAGES.VALUE_ADDED (pair_key kv) (pair_value kv)
                          \/ t = MESSAGES.DUPLICATE_VALUE (pair_key kv)
                          \/ t = MESSAGES.SAVE_ERROR)))
  /\ (forall key val user w,
        writeRaised (callsBetween w (snd (addValueToKey key val user w))) ->
        fst (addValueToKey key val user w)
        = Returned (mkResult false (Some error)))
  /\ (forall message kv w,
        parseKeyValue
          (extractCommandPayload (messageText message) (COMMANDS ADD)) = Some kv ->
        let w1 := snd (addValueToKey (pair_key kv) (pair_value kv)
                         (sender message) w) in
        writeRaised (callsBetween w w1) ->
        outbox w1 = outbox w
        /\ repliedWith (room message) MESSAGES.SAVE_ERROR w1
             (handleAddCommand message w))
  /\ (forall key val user w e,
        isValidKey key = true -> isValidValue val = true ->
        nextRaises w = Some e ->
        let run := addValueToKey key val user w in
        ~ writeRaised (callsBetween w (snd run)) ->
        persistenceRaised (callsBetween w (snd run))
        /\ fst run = Returned (mkResult true None)
        /\ stored (db (snd run)) (normalizeKey key)
           = Some [newValue val user w])
  /\ (forall message kv w e,
        parseKeyValue
          (extractCommandPayload (messageText message) (COMMANDS ADD)) = Some kv ->
        nextRaises w = Some e ->
        let w1 := snd (addValueToKey (pair_key kv) (pair_value kv)
                         (sender message) w) in
        ~ writeRaised (callsBetween w w1) ->
        outbox w1 = outbox w
        /\ repliedWith (room message)
             (MESSAGES.VALUE_ADDED (pair_key kv) (pair_value kv)) w1
             (handleAddCommand message w)).
Proof.
  split; [exact neverThrows_addValueToKey|].
  split; [exact neverThrows_handleAddCommand|].
  split; [exact add_replies|].
  split; [exact add_write_fault|].
  split; [|split; [exact add_read_fault|]].
  - intros message kv w P w1 W. subst w1.
    split; [apply addValueToKey_outbox|].
    pose proof (add_write_fault _ _ _ _ W) as E.
    unfold handleAddCommand. cbv zeta. rewrite P, bind_run.
    destruct (addValueToKey _ _ _ w) as [result w1]. cbn [fst snd] in *.
    rewrite E, addResponse_error. apply sendMessage_repliedWith. nonblank.
  - intros message kv w e P R w1 W. subst w1.
    split; [apply addValueToKey_outbox|].
    pose proof (parseKeyValue_valid _ _ P) as [Vk Vv].
    destruct (add_read_fault _ _ (sender message) w e Vk Vv R W) as (_ & E & _).
    unfold handleAddCommand. cbv zeta. rewrite P, bind_run.
    destruct (addValueToKey _ _ _ w) as [result w1]. cbn [fst snd] in *.
    rewrite E. cbn [addResponse added]. apply sendMessage_repliedWith.
    unfold MESSAGES.VALUE_ADDED. nonblank.
Qed.

(** ** Details *)






(** ** The text of a command *)

Section CommandText.

Hypothesis toLowerCase_empty : forall s : jsstring, toLowerCase s = [] <-> s = [].

(** Lower-casing leaves ['!'] and a command word at the head of a text as
    they are. *)
Hypothesis toLowerCase_prefix :
  forall (c : CommandType) (s : jsstring),
    startsWith (toLowerCase (COMMAND_PREFIX ++ COMMANDS c ++ s))
               (COMMAND_PREFIX ++ COMMANDS c) = true.


(** ** C8 *)


End CommandText.

End Proofs.

(** ** The theorems at work on sample inputs *)

Lemma testRuntime_empty (s : jsstring) :
  @toLowerCase testRuntime s = [] <-> s = [].
Proof.
  cbn [toLowerCase testRuntime]. split; [|now intros ->].
  now destruct s.
Qed.

Lemma add_idempotent_witness :
  exists w3 items,
    addValueToKey (lit " api") (lit " rest ") bot apiWorld
    = (Returned (mkResult false (Some duplicate)), w3)
    /\ db w3 = db apiWorld
    /\ stored (db w3) (normalizeKey (lit "API")) = Some items
    /\ length (List.filter (sameValue (lit "REST")) items) = 1.
Proof.
  apply (@add_idempotent testRuntime (lit "API") (lit " api") (lit "REST")
           (lit " rest ") alice bot emptyWorld apiWorld apiWorld);
    vm_compute; reflexivity.
Defined.

Lemma never_empty_entry_witness :
  let w' := snd (removeValueForKey (lit "api") (lit " rest") apiWorld) in
  db w' !! normalizeKey (lit "api") = None
  /\ forall w'', db w'' = db w' ->
                 fst (getEntryForKey (lit "api") w'') = Returned None.
Proof.
  cbv zeta.
  eapply (proj1 (proj2 (proj2 (proj2 (@never_empty_entry testRuntime))))
            (lit "api") (lit " rest") _ apiWorld);
    vm_compute; reflexivity.
Defined.

Lemma command_classification_witness :
  getCommandType (lit "  !remove API:REST ") = Some REMOVE.
Proof.
  apply (proj1 (@command_classification testRuntime (lit "  !remove API:REST "))).
  exists (lit " API:REST"). split; [vm_compute; reflexivity|].
  right. exists 32%N, (lit "API:REST"). split; reflexivity.
Defined.

Lemma parseKeyValue_spec_witness :
  parseKeyValue (lit " API : REST: the style ")
  = Some (mkPair (lit "API") (lit "REST: the style")).
Proof.
  apply (proj1 (@parseKeyValue_spec testRuntime testRuntime_empty
                  (lit " API : REST: the style "))
               (lit " API ") (lit " REST: the style "));
    vm_compute; try reflexivity; try discriminate.
  intros C. repeat destruct C as [C|C]; try discriminate C. exact C.
Defined.

Lemma multi_add_witness :
  outbox (snd (handleMultiAddCommand (says directRoom alice batch) emptyWorld))
  = outbox emptyWorld
    ++ [(directRoom,
         lit "✅ Добавлено значений: 2" ++ nl ++ lit "⚠️ Пропущено дубликатов: 1")].
Proof.
  destruct (proj1 (proj2 (proj2
              (@multi_add testRuntime (says directRoom alice batch) emptyWorld))))
    as (results & w1 & A & _ & _ & _ & _ & _ & O & _).
  - vm_compute. discriminate.
  - vm_compute in A. injection A as <- <-. exact O.
Defined.

Lemma silent_ignore_witness :
  let message := says channelRoom alice (lit "!add API:REST") in
  let w' := snd (executePostMessageSent message emptyWorld) in
  outbox w' = outbox emptyWorld
  /\ db w' = db emptyWorld
  /\ Forall (fun call => fst call = GetAppUser) (callsBetween emptyWorld w').
Proof.
  apply (@silent_ignore testRuntime (says channelRoom alice (lit "!add API:REST"))
           emptyWorld).
  left. vm_compute. discriminate.
Defined.

Lemma add_fault_handling_witness :
  let w := withFaults [Some (lit "connection reset")] apiWorld in
  let run := addValueToKey (lit "api") (lit "Web API") alice w in
  stored (db w) (lit "api")
  = Some [mkValue (lit "REST") (lit "1700000000000") (lit "alice@example.org")]
  /\ fst run = Returned (mkResult true None)
  /\ stored (db (snd run)) (lit "api")
     = Some [mkValue (lit "Web API") (lit "1700000000000")
               (lit "alice@example.org")].
Proof.
  cbv zeta. split; [vm_compute; reflexivity|].
  refine (proj2 (proj1 (proj2 (proj2 (proj2 (proj2 (proj2
            (@add_fault_handling testRuntime))))))
            (lit "api") (lit "Web API") alice
            (withFaults [Some (lit "connection reset")] apiWorld)
            (lit "connection reset") _ _ _ _)).
  - vm_compute; reflexivity.
  - vm_compute; reflexivity.
  - vm_compute; reflexivity.
  - intros (association & e & W). vm_compute in W.
    repeat destruct W as [W|W]; try discriminate W; exact W.
Defined.

(** C7, as stated, fails: the read of the persistence raises, the writes do
    not, and [addValueToKey] returns Added (the value stored before is
    gone). *)
Lemma add_read_fault_counterexample :
  let w := withFaults [Some (lit "connection reset")] apiWorld in
  let run := addValueToKey (lit "api") (lit "Web API") alice w in
  ~ (persistenceRaised (callsBetween w (snd run)) ->
     fst run = Returned (mkResult false (Some error))).
Proof.
  cbv zeta. intros C.
  assert (Returned (mkResult true None) = Returned (mkResult false (Some error)))
    as E; [|discriminate E].
  apply C. exists (lit "api"), (lit "connection reset"). left.
  vm_compute. left. reflexivity.
Qed.

Lemma testRuntime_prefix (c : CommandType) (s : jsstring) :
  startsWith (@toLowerCase testRuntime (COMMAND_PREFIX ++ COMMANDS c ++ s))
             (COMMAND_PREFIX ++ COMMANDS c) = true.
Proof.
  cbn [toLowerCase testRuntime]. rewrite app_assoc, map_app.
  replace (map asciiLower (COMMAND_PREFIX ++ COMMANDS c))
    with (COMMAND_PREFIX ++ COMMANDS c) by (now destruct c).
  apply startsWith_app.
Qed.


Lemma search_fallback_witness :
  let message := says directRoom alice (lit " Api ") in
  outbox (snd (executePostMessageSent message apiWorld))
  = outbox apiWorld
    ++ [(directRoom, lit "*Ключ:* Api" ++ nl ++ lit "*Значение:* REST")].
Proof.
  cbv zeta.
  destruct (@search_fallback testRuntime testRuntime_empty
              (says directRoom alice (lit " Api ")) apiWorld
              (snd (shouldProcessMessage (says directRoom alice (lit " Api "))
                      apiWorld))
              eq_refl eq_refl)
    as (found & w2 & G & _ & _ & M).
  vm_compute in G. injection G as <- <-.
  destruct M as (_ & _ & O & _). exact O.
Defined.

Lemma command_words_case_sensitive_witness :
  getCommandType (lit "!Add k:v") = None /\ getCommandType (lit "!HELP") = None.
Proof.
  split.
  - refine (proj1 (@command_words_case_sensitive testRuntime
                     (lit "!Add k:v") (lit "Add") (lit " k:v") ADD _ _)).
    + split; [vm_compute; reflexivity|vm_compute; discriminate].
    + vm_compute; reflexivity.
  - refine (proj1 (@command_words_case_sensitive testRuntime
                     (lit "!HELP") (lit "HELP") [] HELP _ _)).
    + split; [vm_compute; reflexivity|vm_compute; discriminate].
    + vm_compute; reflexivity.
Defined.

(** The replies of a session, as delivered. *)

Example multi_add_partial_success :
  map snd (outbox (after [batch] emptyWorld))
  = [lit "✅ Добавлено значений: 2" ++ nl ++ lit "⚠️ Пропущено дубликатов: 1"].
Proof. vm_compute. reflexivity. Qed.

Example search_replies :
  map snd (outbox (after [lit "API"; lit "!add API: REST"; lit "api"; lit "!add api:Web API";
                          lit " Api "] emptyWorld))
  = [MESSAGES.KEY_NOT_FOUND_SEARCH (lit "API");
     MESSAGES.VALUE_ADDED (lit "API") (lit "REST");
     lit "*Ключ:* api" ++ nl ++ lit "*Значение:* REST";
     MESSAGES.VALUE_ADDED (lit "api") (lit "Web API");
     lit "*Ключ:* Api" ++ nl ++ lit "*Значения (2):*" ++ nl
     ++ lit "1. REST" ++ nl ++ lit "2. Web API"].
Proof. vm_compute. reflexivity. Qed.

Example remove_then_search :
  map snd (outbox (after [lit "!add API:REST"; lit "!remove api: rest"; lit "API";
                          lit "!remove API"] emptyWorld))
  = [MESSAGES.VALUE_ADDED (lit "API") (lit "REST");
     MESSAGES.VALUE_REMOVED (lit "api") (lit "rest");
     MESSAGES.KEY_NOT_FOUND_SEARCH (lit "API");
     MESSAGES.KEY_NOT_FOUND (lit "API")].
Proof. vm_compute. reflexivity. Qed.

Example upper_case_command_is_searched :
  map snd (outbox (after [lit "!Add k:v"] emptyWorld))
  = [MESSAGES.KEY_NOT_FOUND_SEARCH (lit "!Add k:v")]
  /\ extractCommandPayload (lit "!Add k:v") (COMMANDS ADD) = lit "k:v"
  /\ extractCommandPayload (lit "!add key:value") (COMMANDS ADD) = lit "key:value".
Proof. vm_compute. repeat split; reflexivity. Qed.

Example add_lost_on_read_fault :
  let w := snd (addValueToKey (lit "api") (lit "Web API") alice
                  (withFaults [Some (lit "connection reset")] apiWorld)) in
  stored (db apiWorld) (lit "api")
  = Some [mkValue (lit "REST") (lit "1700000000000") (lit "alice@example.org")]
  /\ stored (db w) (lit "api")
     = Some [mkValue (lit "Web API") (lit "1700000000000") (lit "alice@example.org")].
Proof. vm_compute. split; reflexivity. Qed.

(** * Further properties of the app *)

(** ** What a computation leaves alone *)

Section Frames.

Variable R : World -> World -> Prop.
Hypothesis R_refl : forall w, R w w.
Hypothesis R_trans : forall w1 w2 w3, R w1 w2 -> R w2 w3 -> R w1 w3.
Hypothesis R_answered : forall c w, R w (answered c w).

Lemma always_ret {A} (a : A) : always R (ret a).
Proof. intros w. apply R_refl. Qed.

Lemma always_throw {A} (e : Error) : always R (@throw A e).
Proof. intros w. apply R_refl. Qed.

Lemma always_bind {A B} (m : Async A) (k : A -> Async B) :
  always R m -> (forall a, always R (k a)) -> always R (bind m k).
Proof.
  intros Am Ak w. rewrite bind_run. specialize (Am w).
  destruct (m w) as [[a|e] w1]; [|exact Am].
  apply (R_trans _ w1); [exact Am|apply Ak].
Qed.

Lemma always_tryCatch {A} (body : Async A) (handler : Error -> Async A) :
  always R body -> (forall e, always R (handler e)) ->
  always R (tryCatch body handler).
Proof.
  intros Ab Ah w. rewrite tryCatch_run. specialize (Ab w).
  destruct (body w) as [[a|e] w1]; [exact Ab|].
  apply (R_trans _ w1); [exact Ab|apply Ah].
Qed.

Lemma always_hostCall (c : HostCall) : always R (hostCall c).
Proof. intros w. rewrite hostCall_run. apply R_answered. Qed.

Lemma always_getAppUser : always R getAppUser.
Proof. intros w. rewrite getAppUser_run. apply R_answered. Qed.

Lemma always_readByAssociation (association : jsstring) :
  always R (readByAssociation association).
Proof. intros w. rewrite readByAssociation_run. apply R_answered. Qed.

Section Store.

Context `{Runtime}.

Lemma always_getEntryForKey (key : jsstring) : always R (getEntryForKey key).
Proof.
  intros w. rewrite getEntryForKey_run.
  destruct (negb (isValidKey key)); [apply R_refl|apply R_answered].
Qed.

Lemma always_getValuesForKey (key : jsstring) : always R (getValuesForKey key).
Proof.
  apply always_bind; [apply always_getEntryForKey|].
  intros [items|]; apply always_ret.
Qed.

(** Relations that a change of the store at [association] respects. *)
Section Writes.

Variable association : jsstring.
Hypothesis R_setDb :
  forall f w,
    (forall k, k <> association -> f (db w) !! k = db w !! k) -> R w (setDb f w).

Lemma always_removeByAssociation : always R (removeByAssociation association).
Proof.
  intros w. rewrite removeByAssociation_run.
  destruct (nextRaises w); [apply R_answered|].
  apply (R_trans _ (answered (RemoveByAssociation association) w));
    [apply R_answered|].
  apply R_setDb. intros k Hk. now apply lookup_delete_ne.
Qed.

Lemma always_createWithAssociation (data : GlossaryEntry) :
  always R (createWithAssociation data association).
Proof.
  intros w. rewrite createWithAssociation_run.
  destruct (nextRaises w); [apply R_answered|].
  apply (R_trans _ (answered (CreateWithAssociation association) w));
    [apply R_answered|].
  apply R_setDb. intros k Hk. now apply lookup_insert_ne.
Qed.

Lemma always_saveValuesForKey (key : jsstring) (vs : list GlossaryValue) :
  normalizeKey key = association -> always R (saveValuesForKey key vs).
Proof.
  intros K. unfold saveValuesForKey, getAssociationForKey. rewrite K.
  destruct (negb (isValidKey key)); [apply always_throw|].
  apply always_bind; [apply always_removeByAssociation|].
  intros _. apply always_createWithAssociation.
Qed.

Lemma always_addValueToKey (key val : jsstring) (user : IUser) :
  normalizeKey key = association -> always R (addValueToKey key val user).
Proof.
  intros K. unfold addValueToKey.
  destruct (negb (isValidKey key) || negb (isValidValue val)); [apply always_ret|].
  apply always_tryCatch; [|intros; apply always_ret].
  apply always_bind; [apply always_getEntryForKey|]. intros entry.
  destruct (existsb _ _); [apply always_ret|].
  apply always_bind; [intros w; apply R_refl|]. intros iso.
  apply always_bind; [now apply always_saveValuesForKey|].
  intros; apply always_ret.
Qed.

Lemma always_removeKey (key : jsstring) :
  normalizeKey key = association -> always R (removeKey key).
Proof.
  intros K. unfold removeKey, getAssociationForKey. rewrite K.
  destruct (negb (isValidKey key)); [apply always_ret|].
  apply always_bind; [apply always_getEntryForKey|].
  intros [items|]; [|apply always_ret].
  apply always_tryCatch; [|intros; apply always_ret].
  apply always_bind; [apply always_removeByAssociation|intros; apply always_ret].
Qed.

Lemma always_removeValueForKey (key val : jsstring) :
  normalizeKey key = association -> always R (removeValueForKey key val).
Proof.
  intros K. unfold removeValueForKey.
  destruct (negb (isValidKey key) || negb (isValidValue val)); [apply always_ret|].
  apply always_bind; [apply always_getEntryForKey|].
  intros [[|item items]|]; try apply always_ret.
  destruct (_ =? _)%nat; [apply always_ret|].
  apply always_tryCatch; [|intros; apply always_ret].
  apply always_bind; [|intros; apply always_ret].
  destruct (List.filter _ _).
  - unfold getAssociationForKey. rewrite K. apply always_removeByAssociation.
  - now apply always_saveValuesForKey.
Qed.

End Writes.

(** Relations that a delivery respects. *)
Section Deliveries.

Hypothesis R_deliver : forall r t w, R w (deliver r t w).

Lemma always_sendMessage (r : IRoom) (t : jsstring) : always R (sendMessage r t).
Proof.
  intros w. rewrite sendMessage_run.
  destruct (negb (truthy (trim t))); [apply R_refl|]. cbn [snd].
  destruct (nextRaises w); [apply R_answered|].
  apply (R_trans _ (answered Finish w)); [apply R_answered|apply R_deliver].
Qed.

Lemma always_sendValuesToUser (r : IRoom) (key : jsstring) (vs : list jsstring) :
  always R (sendValuesToUser r key vs).
Proof.
  unfold sendValuesToUser. destruct vs; [apply always_ret|apply always_sendMessage].
Qed.

Lemma always_handleKeySearch (key : jsstring) (r : IRoom) :
  always R (handleKeySearch key r).
Proof.
  unfold handleKeySearch.
  destruct (negb (isValidKey key)); [apply always_sendMessage|].
  apply always_bind; [apply always_getValuesForKey|].
  intros [[|v vs]|];
    [apply always_sendMessage|apply always_sendValuesToUser
    |apply always_sendMessage].
Qed.

Lemma always_handleDetailsCommand (message : IMessage) :
  always R (handleDetailsCommand message).
Proof.
  unfold handleDetailsCommand. cbv zeta.
  destruct (parseKeyValue _) as [kv|]; [|apply always_sendMessage].
  apply always_bind; [apply always_getEntryForKey|].
  intros [items|]; [|apply always_sendMessage].
  destruct (find _ items); apply always_sendMessage.
Qed.

Lemma always_handleHelpCommand (r : IRoom) : always R (handleHelpCommand r).
Proof. apply always_sendMessage. Qed.

Lemma always_shouldProcessMessage (message : IMessage) :
  always R (shouldProcessMessage message).
Proof.
  unfold shouldProcessMessage.
  destruct (negb (eqb _ _)); [apply always_ret|].
  apply always_bind; [apply always_getAppUser|].
  intros [b|]; [|apply always_ret].
  destruct (eqb _ _); [apply always_ret|].
  destruct (negb (truthy _)); apply always_ret.
Qed.

End Deliveries.

End Store.

End Frames.

Lemma sameStore_refl (w : World) : sameStore w w.
Proof. reflexivity. Qed.

Lemma sameStore_trans (w1 w2 w3 : World) :
  sameStore w1 w2 -> sameStore w2 w3 -> sameStore w1 w3.
Proof. unfold sameStore. congruence. Qed.

Lemma sameStore_answered (c : HostCall) (w : World) : sameStore w (answered c w).
Proof. reflexivity. Qed.

Lemma sameStore_deliver (r : IRoom) (t : jsstring) (w : World) :
  sameStore w (deliver r t w).
Proof. reflexivity. Qed.

Lemma sameOutbox_refl (w : World) : sameOutbox w w.
Proof. reflexivity. Qed.

Lemma sameOutbox_trans (w1 w2 w3 : World) :
  sameOutbox w1 w2 -> sameOutbox w2 w3 -> sameOutbox w1 w3.
Proof. unfold sameOutbox. congruence. Qed.

Lemma sameOutbox_answered (c : HostCall) (w : World) : sameOutbox w (answered c w).
Proof. reflexivity. Qed.

Lemma sameOutbox_setDb (association : jsstring) f (w : World) :
  (forall k, k <> association -> f (db w) !! k = db w !! k) ->
  sameOutbox w (setDb f w).
Proof. reflexivity. Qed.

Lemma sameElsewhere_refl (association : jsstring) (w : World) :
  sameElsewhere association w w.
Proof. intros k _. reflexivity. Qed.

Lemma sameElsewhere_trans (association : jsstring) (w1 w2 w3 : World) :
  sameElsewhere association w1 w2 -> sameElsewhere association w2 w3 ->
  sameElsewhere association w1 w3.
Proof. intros E1 E2 k Hk. now rewrite E2, E1. Qed.

Lemma sameElsewhere_answered (association : jsstring) (c : HostCall) (w : World) :
  sameElsewhere association w (answered c w).
Proof. intros k _. reflexivity. Qed.

Lemma sameElsewhere_setDb (association : jsstring) f (w : World) :
  (forall k, k <> association -> f (db w) !! k = db w !! k) ->
  sameElsewhere association w (setDb f w).
Proof. intros F k Hk. now apply F. Qed.

Lemma staysCalm_refl (w : World) : staysCalm w w.
Proof. intros C. exact C. Qed.

Lemma staysCalm_trans (w1 w2 w3 : World) :
  staysCalm w1 w2 -> staysCalm w2 w3 -> staysCalm w1 w3.
Proof. unfold staysCalm. auto. Qed.

Lemma staysCalm_answered (c : HostCall) (w : World) : staysCalm w (answered c w).
Proof. unfold staysCalm, calm. cbn. now intros ->. Qed.

Lemma staysCalm_setDb (association : jsstring) f (w : World) :
  (forall k, k <> association -> f (db w) !! k = db w !! k) ->
  staysCalm w (setDb f w).
Proof. intros _ C. exact C. Qed.

Section MoreProofs.

Context `{Runtime}.

(** ** The store outside of the key *)

(** X1. [addValueToKey], [removeValueForKey] and [removeKey] leave every
    association but the one of their key as it was, whatever the host
    raises. *)
Theorem store_operations_touch_one_key (key val : jsstring) (user : IUser) :
  always (sameElsewhere (normalizeKey key)) (addValueToKey key val user)
  /\ always (sameElsewhere (normalizeKey key)) (removeValueForKey key val)
  /\ always (sameElsewhere (normalizeKey key)) (removeKey key).
Proof.
  pose proof (sameElsewhere_refl (normalizeKey key)) as Rr.
  pose proof (sameElsewhere_trans (normalizeKey key)) as Rt.
  pose proof (sameElsewhere_answered (normalizeKey key)) as Ra.
  pose proof (sameElsewhere_setDb (normalizeKey key)) as Rs.
  split; [|split].
  - now apply (always_addValueToKey _ Rr Rt Ra (normalizeKey key) Rs).
  - now apply (always_removeValueForKey _ Rr Rt Ra (normalizeKey key) Rs).
  - now apply (always_removeKey _ Rr Rt Ra (normalizeKey key) Rs).
Qed.

(** ** Commands that only read *)

(** X2. A search, [!details] and [!help] never change the store, whatever
    the host raises: [handleKeySearch], [handleDetailsCommand] and
    [handleHelpCommand] leave [db] as it was, and so does
    [executePostMessageSent] on every message that is not classified as add,
    multi-add or remove. *)
Theorem lookups_leave_store (message : IMessage) :
  (forall key r, always sameStore (handleKeySearch key r))
  /\ always sameStore (handleDetailsCommand message)
  /\ always sameStore (handleHelpCommand (room message))
  /\ (getCommandType (messageText message) <> Some ADD ->
      getCommandType (messageText message) <> Some MULTI_ADD ->
      getCommandType (messageText message) <> Some REMOVE ->
      always sameStore (executePostMessageSent message)).
Proof.
  pose proof sameStore_refl as Rr. pose proof sameStore_trans as Rt.
  pose proof sameStore_answered as Ra. pose proof sameStore_deliver as Rd.
  assert (forall key r, always sameStore (handleKeySearch key r)) as S
    by (intros; now apply always_handleKeySearch).
  assert (always sameStore (handleDetailsCommand message)) as D
    by now apply always_handleDetailsCommand.
  assert (always sameStore (handleHelpCommand (room message))) as Hh
    by now apply always_handleHelpCommand.
  repeat split; try assumption.
  intros Na Nm Nr. unfold executePostMessageSent.
  apply always_bind; try assumption.
  { now apply always_shouldProcessMessage. }
  intros [|]; cbn [negb]; [|now apply always_ret].
  destruct (getCommandType (messageText message)) as [[]|];
    try contradiction; cbn [executeCommand]; auto.
Qed.

(** ** Invariants of the stored values *)

Lemma everyEntry_delete (Q : list GlossaryValue -> Prop)
    (m : gmap (list N) (list GlossaryEntry))
    (association : jsstring) :
  everyEntry Q m -> everyEntry Q (delete association m).
Proof.
  intros I k records entry L. apply lookup_delete_Some in L as [_ L].
  now apply (I k records).
Qed.

Lemma everyEntry_insert (Q : list GlossaryValue -> Prop)
    (m : gmap (list N) (list GlossaryEntry))
    (association : jsstring) (vs : list GlossaryValue) :
  everyEntry Q m -> Q vs -> everyEntry Q (<[association := [mkEntry vs]]> m).
Proof.
  intros I V k records entry L.
  apply lookup_insert_Some in L as [[_ <-] | [_ L]].
  - intros [<-|[]]. exact V.
  - now apply (I k records).
Qed.

Lemma everyEntry_stored (Q : list GlossaryValue -> Prop)
    (m : gmap (list N) (list GlossaryEntry))
    (association : jsstring) (items : list GlossaryValue) :
  everyEntry Q m -> stored m association = Some items -> Q items.
Proof.
  intros I. unfold stored.
  destruct (m !! association) as [[|entry records]|] eqn:L; cbn; try discriminate.
  destruct (values entry) eqn:V; [discriminate|].
  intros E. injection E as <-. rewrite <- V.
  apply (I association (entry :: records)); [assumption|now left].
Qed.

Lemma keepsEvery_saveValuesForKey (Q : list GlossaryValue -> Prop)
    (key : jsstring) (vs : list GlossaryValue) :
  Q vs -> always (keepsEvery Q) (saveValuesForKey key vs).
Proof.
  intros V w I. destruct (isValidKey key) eqn:Vk.
  - rewrite saveValuesForKey_run by assumption. cbv zeta.
    destruct (nextRaises w); [exact I|].
    destruct (nextRaises _); cbn [snd]; [now apply everyEntry_delete|].
    apply everyEntry_insert; [now apply everyEntry_delete|exact V].
  - unfold saveValuesForKey. rewrite Vk. exact I.
Qed.

Lemma keepsEvery_addValueToKey (Q : list GlossaryValue -> Prop)
    (key val : jsstring) (user : IUser) :
  Q [] ->
  (forall items w,
     Q items -> existsb (sameValue val) items = false ->
     isValidValue val = true ->
     Q (items ++ [newValue val user w])) ->
  always (keepsEvery Q) (addValueToKey key val user).
Proof.
  intros Q0 Qs w I.
  destruct (isValidKey key && isValidValue val) eqn:V.
  2:{ now rewrite addValueToKey_invalid by assumption. }
  apply andb_true_iff in V as [Vk Vv].
  rewrite addValueToKey_run by assumption. cbv zeta.
  set (existing := default [] _).
  assert (Q existing) as Qe.
  { unfold existing. destruct (nextRaises w); [exact Q0|].
    destruct (stored (db w) (normalizeKey key)) eqn:S; [|exact Q0].
    now apply (everyEntry_stored Q (db w) (normalizeKey key)). }
  destruct (existsb (sameValue val) existing) eqn:D; [exact I|].
  pose proof (keepsEvery_saveValuesForKey Q key
                (existing ++ [newValue val user w]) (Qs _ _ Qe D Vv)
                (answered (ReadByAssociation (normalizeKey key)) w) I) as K.
  destruct (saveValuesForKey _ _ _) as [[[]|e] w2]; exact K.
Qed.

Lemma keepsEvery_removeValueForKey (Q : list GlossaryValue -> Prop) (key val : jsstring) :
  (forall items, Q items -> Q (kept val items)) ->
  always (keepsEvery Q) (removeValueForKey key val).
Proof.
  intros Qk w I.
  destruct (isValidKey key) eqn:Vk.
  2:{ unfold removeValueForKey. rewrite Vk. exact I. }
  destruct (isValidValue val) eqn:Vv.
  2:{ unfold removeValueForKey. rewrite Vk, Vv. exact I. }
  rewrite removeValueForKey_run by assumption. cbv zeta.
  destruct (nextRaises w); [exact I|].
  destruct (stored (db w) (normalizeKey key)) as [items|] eqn:S; [|exact I].
  pose proof (Qk items (everyEntry_stored Q _ _ _ I S)) as Qi.
  destruct items as [|item items]; [exact I|].
  destruct (_ =? _)%nat; [exact I|].
  destruct (kept val (item :: items)) as [|item' filtered].
  - destruct (nextRaises _); cbn [snd]; [exact I|now apply everyEntry_delete].
  - pose proof (keepsEvery_saveValuesForKey Q key (item' :: filtered) Qi
                  (answered (ReadByAssociation (normalizeKey key)) w) I) as K.
    destruct (saveValuesForKey _ _ _) as [[[]|e] w2]; exact K.
Qed.

Lemma keepsEvery_removeKey (Q : list GlossaryValue -> Prop) (key : jsstring) :
  always (keepsEvery Q) (removeKey key).
Proof.
  intros w I. unfold removeKey.
  destruct (negb (isValidKey key)); [exact I|].
  rewrite bind_run, getEntryForKey_run.
  destruct (negb (isValidKey key)); cbn [negb].
  - exact I.
  - destruct (match nextRaises w with Some _ => None | None => _ end);
      [|exact I].
    rewrite tryCatch_run, bind_run. unfold getAssociationForKey.
    rewrite removeByAssociation_run.
    destruct (nextRaises _); cbn [snd]; [exact I|now apply everyEntry_delete].
Qed.

Lemma NoDup_map_filter {A B} (f : A -> B) (p : A -> bool) (l : list A) :
  NoDup (map f l) -> NoDup (map f (List.filter p l)).
Proof.
  induction l as [|x l IH]; cbn; [auto|].
  intros N. apply NoDup_cons in N as [Nx N].
  destruct (p x); cbn; [|now apply IH].
  apply NoDup_cons. split; [|now apply IH].
  intros I. apply Nx. apply list_elem_of_In. apply list_elem_of_In in I.
  apply in_map_iff in I as (y & E & I).
  apply in_map_iff. exists y. split; [exact E|].
  apply filter_In in I. tauto.
Qed.

Lemma sameValue_absent (val : jsstring) (items : list GlossaryValue) :
  existsb (sameValue val) items = false ->
  ~ In (normalizeValue val) (map (fun item => normalizeValue (value item)) items).
Proof.
  intros D I. apply in_map_iff in I as (item & E & I).
  assert (existsb (sameValue val) items = true) as T; [|congruence].
  apply existsb_exists. exists item. split; [exact I|].
  unfold sameValue. now apply eqb_true.
Qed.

(** X3. No entry ever gets two values that normalize alike: in a store
    where the values of every record are distinct up to trimming and case,
    they still are after [addValueToKey], [removeValueForKey] and
    [removeKey], whatever the host raises. *)
Theorem values_stay_distinct (key val : jsstring) (user : IUser) :
  always (keepsEvery distinctValues) (addValueToKey key val user)
  /\ always (keepsEvery distinctValues) (removeValueForKey key val)
  /\ always (keepsEvery distinctValues) (removeKey key).
Proof.
  split; [|split].
  - apply keepsEvery_addValueToKey; [constructor|].
    intros items w N D _. unfold distinctValues in *.
    rewrite map_app. cbn [map]. apply NoDup_app. split; [exact N|].
    split; [|apply NoDup_singleton].
    intros x I E. apply list_elem_of_In in I.
    apply list_elem_of_In in E as [E|[]]. subst x. revert I.
    unfold newValue. cbn [value]. rewrite normalizeValue_trim.
    now apply sameValue_absent.
  - apply keepsEvery_removeValueForKey.
    intros items N. unfold distinctValues, kept in *.
    now apply NoDup_map_filter.
  - apply keepsEvery_removeKey.
Qed.

(** X4. Every stored value stays trimmed and valid: in a store where this
    holds of every value of every record, it still holds after
    [addValueToKey], [removeValueForKey] and [removeKey], whatever the host
    raises. *)
Theorem values_stay_clean (key val : jsstring) (user : IUser) :
  always (keepsEvery cleanValues) (addValueToKey key val user)
  /\ always (keepsEvery cleanValues) (removeValueForKey key val)
  /\ always (keepsEvery cleanValues) (removeKey key).
Proof.
  split; [|split].
  - apply keepsEvery_addValueToKey; [constructor|].
    intros items w C _ V. unfold cleanValues in *.
    apply Forall_app. split; [exact C|].
    constructor; [|constructor]. unfold newValue. cbn [value].
    split; [apply trim_idem|now rewrite isValidValue_trim].
  - apply keepsEvery_removeValueForKey.
    intros items C. unfold cleanValues, kept in *.
    apply Forall_forall. intros item I. apply list_elem_of_In in I.
    apply filter_In in I as [I _]. apply list_elem_of_In in I.
    revert item I. now apply Forall_forall.
  - apply keepsEvery_removeKey.
Qed.

(** ** The store operations when no host call raises *)

Lemma calm_nextRaises (w : World) : calm w -> nextRaises w = None.
Proof. unfold calm, nextRaises. now intros ->. Qed.

Lemma calm_answered (c : HostCall) (w : World) : calm w -> calm (answered c w).
Proof. apply staysCalm_answered. Qed.

Lemma calm_setDb f (w : World) : calm w -> calm (setDb f w).
Proof. intros C. exact C. Qed.

Ltac calm :=
  repeat first [assumption | apply calm_answered | apply calm_setDb].

Lemma stored_not_empty (m : gmap (list N) (list GlossaryEntry))
    (association : jsstring) :
  stored m association <> Some [].
Proof.
  unfold stored. destruct (default [] (m !! association)) as [|entry records];
    [discriminate|].
  destruct (values entry) eqn:V; discriminate.
Qed.

Lemma stored_single (m : gmap (list N) (list GlossaryEntry))
    (association : jsstring) (items : list GlossaryValue) :
  stored (<[association := [mkEntry items]]> m) association
  = match items with [] => None | _ :: _ => Some items end.
Proof. unfold stored. rewrite lookup_insert_eq. now destruct items. Qed.

Lemma stored_delete (m : gmap (list N) (list GlossaryEntry))
    (association : jsstring) :
  stored (delete association m) association = None.
Proof. unfold stored. now rewrite lookup_delete_eq. Qed.

Lemma removeKey_run (key : jsstring) (w : World) :
  isValidKey key = true ->
  removeKey key w =
  let association := normalizeKey key in
  let w1 := answered (ReadByAssociation association) w in
  match (match nextRaises w with
         | Some _ => None
         | None => stored (db w) association
         end) with
  | None => (Returned false, w1)
  | Some _ =>
    match nextRaises w1 with
    | Some _ => (Returned false, answered (RemoveByAssociation association) w1)
    | None =>
      (Returned true,
       setDb (delete association) (answered (RemoveByAssociation association) w1))
    end
  end.
Proof.
  intros Vk. unfold removeKey. rewrite Vk. cbn [negb].
  rewrite bind_run, getEntryForKey_run, Vk. cbn [negb]. cbv zeta.
  destruct (match nextRaises w with Some _ => None | None => _ end);
    [|reflexivity].
  rewrite tryCatch_run, bind_run. unfold getAssociationForKey.
  rewrite removeByAssociation_run. destruct (nextRaises _); reflexivity.
Qed.

Lemma neverThrows_removeKey (key : jsstring) : neverThrows (removeKey key).
Proof.
  unfold removeKey. destruct (negb (isValidKey key)); [apply neverThrows_ret|].
  apply neverThrows_bind; [apply neverThrows_getEntryForKey|].
  intros [items|]; [|apply neverThrows_ret].
  apply neverThrows_tryCatch. intros e. apply neverThrows_ret.
Qed.

Lemma neverThrows_removeValueForKey (key val : jsstring) :
  neverThrows (removeValueForKey key val).
Proof.
  unfold removeValueForKey.
  destruct (negb (isValidKey key) || negb (isValidValue val));
    [apply neverThrows_ret|].
  apply neverThrows_bind; [apply neverThrows_getEntryForKey|].
  intros [[|item items]|]; try apply neverThrows_ret.
  destruct (_ =? _)%nat; [apply neverThrows_ret|].
  apply neverThrows_tryCatch. intros e. apply neverThrows_ret.
Qed.

(** X5. [removeKey] never throws.  When it returns [true] an entry was
    stored for the key, the association of the key is deleted and nothing
    else changes, and [getEntryForKey] then returns [null]; when it returns
    [false] the store is as it was.  With a valid key and no host call
    raising, it returns [true] exactly when an entry is stored. *)
Theorem removeKey_deletes_the_entry (key : jsstring) (w w' : World) :
  neverThrows (removeKey key)
  /\ (removeKey key w = (Returned true, w') ->
      stored (db w) (normalizeKey key) <> None
      /\ db w' = delete (normalizeKey key) (db w)
      /\ forall w'', db w'' = db w' ->
                     fst (getEntryForKey key w'') = Returned None)
  /\ (removeKey key w = (Returned false, w') -> db w' = db w)
  /\ (calm w -> isValidKey key = true ->
      fst (removeKey key w)
      = Returned (match stored (db w) (normalizeKey key) with
                  | Some _ => true
                  | None => false
                  end)).
Proof.
  split; [apply neverThrows_removeKey|].
  destruct (isValidKey key) eqn:Vk.
  2:{ unfold removeKey. rewrite Vk. cbn [negb ret].
      repeat split; try discriminate.
      now intros E; injection E as <-. }
  rewrite removeKey_run by assumption. cbv zeta. split; [|split].
  - destruct (nextRaises w); [discriminate|].
    destruct (stored (db w) (normalizeKey key)); [|discriminate].
    destruct (nextRaises _); [discriminate|].
    intros E. injection E as <-. split; [discriminate|]. split; [reflexivity|].
    intros w'' D. apply getEntryForKey_absent. rewrite D.
    unfold setDb. cbn [db]. apply lookup_delete_eq.
  - destruct (match nextRaises w with Some _ => None | None => _ end).
    + destruct (nextRaises _); [|discriminate].
      now intros E; injection E as <-.
    + now intros E; injection E as <-.
  - intros C _. rewrite !calm_nextRaises by calm.
    now destruct (stored (db w) (normalizeKey key)).
Qed.

(** X6. [addValueToKey] with a blank key or value returns Error and calls
    nothing.  With a valid key and value and no host call raising: when a
    stored value of the key normalizes like the new one it returns Duplicate
    and the store is as it was; otherwise it returns Added and the key has
    exactly one record, with the values stored before, in their order,
    followed by the new one (trimmed text, ISO time of the clock, resolved
    identity of the author). *)
Theorem addValueToKey_appends (key val : jsstring) (user : IUser) (w : World) :
  (isValidKey key && isValidValue val = false ->
   addValueToKey key val user w = (Returned (mkResult false (Some error)), w))
  /\ (calm w -> isValidKey key = true -> isValidValue val = true ->
      let existing := default [] (stored (db w) (normalizeKey key)) in
      let run := addValueToKey key val user w in
      if existsb (sameValue val) existing
      then fst run = Returned (mkResult false (Some duplicate))
           /\ db (snd run) = db w
      else fst run = Returned (mkResult true None)
           /\ db (snd run) !! normalizeKey key
              = Some [mkEntry (existing ++ [newValue val user w])]
           /\ stored (db (snd run)) (normalizeKey key)
              = Some (existing ++ [newValue val user w])).
Proof.
  split; [apply addValueToKey_invalid|].
  intros C Vk Vv. cbv zeta.
  rewrite addValueToKey_run by assumption. cbv zeta.
  rewrite (calm_nextRaises w C).
  destruct (existsb _ _); [now split|].
  rewrite saveValuesForKey_run by assumption. cbv zeta.
  rewrite !calm_nextRaises by calm. cbn [fst snd].
  split; [reflexivity|]. unfold setDb at 1. cbn [db].
  split; [apply lookup_insert_eq|apply stored_insert].
Qed.

Lemma kept_In (val : jsstring) (items : list GlossaryValue) (item : GlossaryValue) :
  In item (kept val items)
  <-> In item items /\ (value item = [] \/ sameValue val item = false).
Proof.
  unfold kept. rewrite filter_In. unfold sameValue.
  destruct (value item) eqn:V; cbn [truthy negb].
  - tauto.
  - rewrite negb_true_iff. split; intros [I E]; (split; [exact I|]).
    + now right.
    + now destruct E.
Qed.

(** X7. [removeValueForKey] never throws.  With a valid key and value and
    no host call raising, on a stored entry: it keeps, in their order, the
    values that are empty or do not normalize like the given one; when
    nothing was dropped it returns [false] and the store is as it was;
    otherwise it returns [true] and the key holds the kept values, or no
    entry when none is kept.  Without a stored entry it returns [false]. *)
Theorem removeValueForKey_filters (key val : jsstring) (w : World) :
  neverThrows (removeValueForKey key val)
  /\ (calm w -> isValidKey key = true -> isValidValue val = true ->
      let run := removeValueForKey key val w in
      match stored (db w) (normalizeKey key) with
      | None => fst run = Returned false /\ db (snd run) = db w
      | Some items =>
        (forall item,
           In item (kept val items)
           <-> In item items /\ (value item = [] \/ sameValue val item = false))
        /\ if (length (kept val items) =? length items)%nat
           then fst run = Returned false /\ db (snd run) = db w
           else fst run = Returned true
                /\ stored (db (snd run)) (normalizeKey key)
                   = match kept val items with
                     | [] => None
                     | _ :: _ => Some (kept val items)
                     end
      end).
Proof.
  split; [apply neverThrows_removeValueForKey|].
  intros C Vk Vv. cbv zeta.
  rewrite removeValueForKey_run by assumption. cbv zeta.
  rewrite (calm_nextRaises w C).
  destruct (stored (db w) (normalizeKey key)) as [items|] eqn:S; [|now split].
  split; [intros item; apply kept_In|].
  destruct items as [|item items]; [now destruct (stored_not_empty _ _ S)|].
  destruct (_ =? _)%nat; [now split|].
  destruct (kept val (item :: items)) as [|item' filtered].
  - rewrite !calm_nextRaises by calm. cbn [fst snd].
    split; [reflexivity|]. unfold setDb. cbn [db]. apply stored_delete.
  - rewrite saveValuesForKey_run by assumption. cbv zeta.
    rewrite !calm_nextRaises by calm. cbn [fst snd].
    split; [reflexivity|]. unfold setDb at 1. cbn [db]. apply stored_single.
Qed.

(** ** A write that raises half-way *)

(** X8. [saveValuesForKey] deletes and then creates, so a
    [createWithAssociation] that raises after [removeByAssociation] went
    through loses the entry: [addValueToKey] then returns Error and
    [removeValueForKey] returns [false], and in both cases no record is left
    for the key, also when values were stored before. *)
Theorem create_fault_loses_entry (key val : jsstring) (user : IUser) (w : World)
    (e : Error) (rest : list (option Error)) :
  faults w = None :: None :: Some e :: rest ->
  isValidKey key = true -> isValidValue val = true ->
  (existsb (sameValue val) (default [] (stored (db w) (normalizeKey key))) = false ->
   let run := addValueToKey key val user w in
   fst run = Returned (mkResult false (Some error))
   /\ db (snd run) !! normalizeKey key = None)
  /\ (forall items,
        stored (db w) (normalizeKey key) = Some items ->
        kept val items <> [] ->
        length (kept val items) <> length items ->
        let run := removeValueForKey key val w in
        fst run = Returned false /\ db (snd run) !! normalizeKey key = None).
Proof.
  intros F Vk Vv. destruct w as [d o a c f t]. cbn [faults] in F. subst f.
  split.
  - intros D. cbv zeta. rewrite addValueToKey_run by assumption. cbv zeta.
    cbn [nextRaises faults db] in *. rewrite D.
    rewrite saveValuesForKey_run by assumption. cbv zeta.
    cbn [nextRaises answered called setDb faults tail db fst snd].
    split; [reflexivity|apply lookup_delete_eq].
  - intros items S K L. cbv zeta.
    rewrite removeValueForKey_run by assumption. cbv zeta.
    cbn [nextRaises faults db] in *. rewrite S.
    destruct items as [|item items]; [now destruct (stored_not_empty _ _ S)|].
    apply Nat.eqb_neq in L. rewrite L.
    destruct (kept val (item :: items)) as [|item' filtered]; [contradiction|].
    rewrite saveValuesForKey_run by assumption. cbv zeta.
    cbn [nextRaises answered called setDb faults tail db fst snd].
    split; [reflexivity|apply lookup_delete_eq].
Qed.

(** ** The key and the value count up to normalization *)

(** X9. The store operations see a key only through [normalizeKey], and
    [removeValueForKey] sees the value only through [normalizeValue]: two
    keys (values) with the same normalized form give the same result and the
    same world.  In particular a key and the same key trimmed are looked up
    alike. *)
Theorem store_keyed_by_normalized_key (key key' : jsstring) :
  normalizeKey key = normalizeKey key' ->
  (forall w, getEntryForKey key w = getEntryForKey key' w)
  /\ (forall val user w, addValueToKey key val user w = addValueToKey key' val user w)
  /\ (forall w, removeKey key w = removeKey key' w)
  /\ (forall val val' w,
        normalizeValue val = normalizeValue val' ->
        removeValueForKey key val w = removeValueForKey key' val' w)
  /\ (forall w, getEntryForKey (trim key) w = getEntryForKey key w).
Proof.
  intros E.
  assert (forall k k', normalizeKey k = normalizeKey k' ->
                       getEntryForKey k = getEntryForKey k') as G.
  { intros k k' Ek. unfold getEntryForKey, isValidKey, getAssociationForKey.
    now rewrite Ek. }
  split; [intros w; now rewrite (G key key' E)|]. split; [|split; [|split]].
  - intros val user w.
    unfold addValueToKey, saveValuesForKey, isValidKey, getAssociationForKey.
    now rewrite E, (G key key' E).
  - intros w. unfold removeKey, isValidKey, getAssociationForKey.
    now rewrite E, (G key key' E).
  - intros val val' w Ev.
    unfold removeValueForKey, saveValuesForKey, isValidKey, isValidValue,
      getAssociationForKey.
    now rewrite E, Ev, (G key key' E).
  - intros w. now rewrite (G (trim key) key (normalizeKey_trim key)).
Qed.

(** ** The identity of the author *)

(** X10. [getUserEmail] never returns the empty string.  The e-mail it
    chooses is the first verified one, else the first one.  It returns the
    address of the chosen e-mail when that address is not empty; otherwise
    (no e-mail, or an empty address) the user name, else the display name,
    else ['unknown']. *)
Theorem getUserEmail_resolves (user : IUser) :
  let otherwise :=
    match username user, name user with
    | _ :: _, _ => username user
    | [], _ :: _ => name user
    | [], [] => lit "unknown"
    end in
  let resolved (e : IUserEmail) :=
    match address e with
    | _ :: _ => address e
    | [] => otherwise
    end in
  getUserEmail user <> []
  /\ (forall es e,
        emails user = Some es -> find verified es = Some e ->
        getUserEmail user = resolved e)
  /\ (forall es e,
        emails user = Some es -> find verified es = None -> head es = Some e ->
        getUserEmail user = resolved e)
  /\ (emails user = None \/ emails user = Some [] ->
      getUserEmail user = otherwise).
Proof.
  cbv zeta.
  assert (orElse (username user) (orElse (name user) (lit "unknown"))
          = match username user, name user with
            | _ :: _, _ => username user
            | [], _ :: _ => name user
            | [], [] => lit "unknown"
            end) as F
    by (destruct (username user), (name user); reflexivity).
  unfold getUserEmail. rewrite F. split; [|split; [|split]].
  - destruct (match emails user with Some _ => _ | None => _ end) as [e|];
      [destruct (address e); [|discriminate]|];
      cbn [orElse]; destruct (username user); try discriminate;
      destruct (name user); discriminate.
  - intros es e -> ->. now destruct (address e).
  - intros es e -> -> ->. now destruct (address e).
  - intros [-> | ->]; reflexivity.
Qed.

(** ** What comes out of the parsers *)

Lemma trimEnd_In (c : char) (s : jsstring) : In c (trimEnd s) -> In c s.
Proof.
  induction s as [|x s IH]; [auto|]. rewrite trimEnd_cons.
  destruct (trimEnd s) as [|y r].
  - destruct (isWhiteSpace x); cbn; tauto.
  - cbn in *. tauto.
Qed.

Lemma trim_In (c : char) (s : jsstring) : In c (trim s) -> In c s.
Proof. intros I. apply trimStart_In. now apply trimEnd_In. Qed.

Lemma indexOf_split (s : jsstring) (c : char) :
  (0 <= indexOf s c)%Z ->
  exists before after,
    s = before ++ c :: after /\ ~ In c before
    /\ indexOf s c = Z.of_nat (length before).
Proof.
  induction s as [|x s IH]; cbn [indexOf]; [lia|].
  destruct (N.eqb_spec x c) as [->|Ne].
  - intros _. now exists [], s.
  - destruct (Z.ltb_spec (indexOf s c) 0) as [Lt|Ge]; [lia|]. intros _.
    destruct (IH Ge) as (before & after & -> & Hn & E).
    exists (x :: before), after. split; [reflexivity|]. split.
    + intros [I|I]; [now apply Ne|now apply Hn].
    + rewrite E. cbn [length]. lia.
Qed.

(** X11. Whatever [parseKeyValue] returns is ready for the store: the text
    had a colon, the key is the trimmed text before the first colon and has
    no colon in it, the value is the trimmed text after it, and both are
    valid. *)
Theorem parseKeyValue_output (t : jsstring) (kv : KeyValuePair) :
  parseKeyValue t = Some kv ->
  (exists before after,
     t = before ++ 58%N :: after /\ ~ In 58%N before
     /\ kv = mkPair (trim before) (trim after))
  /\ ~ In 58%N (pair_key kv)
  /\ trim (pair_key kv) = pair_key kv
  /\ trim (pair_value kv) = pair_value kv
  /\ isValidKey (pair_key kv) = true
  /\ isValidValue (pair_value kv) = true.
Proof.
  intros P. pose proof (parseKeyValue_valid t kv P) as [Vk Vv].
  revert P. unfold parseKeyValue.
  destruct (negb (truthy t)); [discriminate|].
  destruct (Z.leb_spec (indexOf t 58%N) 0) as [Le|Gt]; [discriminate|].
  destruct (indexOf_split t 58%N) as (before & after & -> & Hn & E); [lia|].
  rewrite E, substring_before, substring_after.
  destruct (negb _ || negb _); [discriminate|].
  intros P. injection P as <-. cbn [pair_key pair_value].
  split; [now exists before, after|].
  split; [intros I; apply Hn; now apply trim_In|].
  repeat split; try apply trim_idem; assumption.
Qed.

Lemma trimEnd_app_blank (a b : jsstring) :
  trimEnd b = [] -> trimEnd (a ++ b) = trimEnd a.
Proof.
  intros Hb. induction a as [|c a IH]; [exact Hb|].
  now rewrite <- app_comm_cons, !trimEnd_cons, IH.
Qed.

Lemma trim_after_word (c : CommandType) (rest : jsstring) :
  trim (COMMAND_PREFIX ++ COMMANDS c ++ rest)
  = COMMAND_PREFIX ++ COMMANDS c ++ trimEnd rest.
Proof.
  unfold trim.
  change (COMMAND_PREFIX ++ COMMANDS c ++ rest) with (33%N :: COMMANDS c ++ rest).
  rewrite trimStart_fixed by reflexivity.
  change (33%N :: COMMANDS c ++ rest)
    with ((COMMAND_PREFIX ++ COMMANDS c) ++ rest).
  destruct (trimEnd rest) as [|x r] eqn:E.
  - rewrite trimEnd_app_blank by assumption.
    rewrite app_nil_r. now destruct c.
  - rewrite trimEnd_app by (rewrite E; discriminate).
    now rewrite E, <- app_assoc.
Qed.

Section Payload.

(** Lower-casing leaves ['!'] and a command word at the head of a text as
    they are. *)
Hypothesis toLowerCase_prefix :
  forall (c : CommandType) (s : jsstring),
    startsWith (toLowerCase (COMMAND_PREFIX ++ COMMANDS c ++ s))
               (COMMAND_PREFIX ++ COMMANDS c) = true.

(** X12. The payload [extractCommandPayload] returns is always trimmed, and
    for a text that is ['!'], a command word and then anything, it is that
    rest, trimmed: nothing of the rest is lost and no boundary after the word
    is asked for. *)
Theorem extractCommandPayload_rest (c : CommandType) (t rest command : jsstring) :
  trim (extractCommandPayload t command) = extractCommandPayload t command
  /\ extractCommandPayload (COMMAND_PREFIX ++ COMMANDS c ++ rest) (COMMANDS c)
     = trim rest.
Proof.
  split.
  - unfold extractCommandPayload.
    destruct (negb (startsWith _ _)); [reflexivity|apply trim_idem].
  - unfold extractCommandPayload.
    rewrite orElse_nil, trim_after_word, toLowerCase_prefix. cbn [negb].
    rewrite (app_assoc COMMAND_PREFIX), substring_from. apply trim_trimEnd.
Qed.

End Payload.

(** ** Adding and then removing *)

Section RoundTrip.

Hypothesis toLowerCase_empty : forall s : jsstring, toLowerCase s = [] <-> s = [].

Lemma filter_all {A} (f : A -> bool) (l : list A) :
  existsb (fun x => negb (f x)) l = false -> List.filter f l = l.
Proof.
  induction l as [|x l IH]; cbn; [reflexivity|].
  destruct (f x); cbn; [|discriminate]. intros E. now rewrite IH.
Qed.

Lemma existsb_none {A} (f g : A -> bool) (l : list A) :
  (forall x, f x = true -> g x = true) ->
  existsb g l = false -> existsb f l = false.
Proof.
  intros M. induction l as [|x l IH]; cbn; [reflexivity|].
  intros E. apply orb_false_iff in E as [Ex E].
  rewrite (IH E), orb_false_r.
  destruct (f x) eqn:F; [|reflexivity]. now rewrite (M x F) in Ex.
Qed.

Lemma kept_after_add (val val' : jsstring) (user : IUser) (w : World)
    (existing : list GlossaryValue) :
  isValidValue val = true ->
  normalizeValue val' = normalizeValue val ->
  existsb (sameValue val) existing = false ->
  kept val' (existing ++ [newValue val user w]) = existing.
Proof.
  intros Vv Ev D. unfold kept. rewrite List.filter_app. cbn [List.filter].
  unfold newValue at 1 2. cbn [value].
  rewrite (isValidValue_iff toLowerCase_empty) in Vv.
  rewrite Vv, normalizeValue_trim, Ev, eqb_refl. cbn [negb].
  rewrite app_nil_r. apply filter_all.
  apply (existsb_none _ (sameValue val)); [|exact D].
  intros item. unfold sameValue.
  destruct (truthy (value item)); cbn [negb]; [|discriminate].
  now rewrite negb_involutive.
Qed.

(** X13. Removing what was just added restores the entry: when no host
    call raises and [addValueToKey key val] puts a new value, a following
    [removeValueForKey] under the same key, with a value that normalizes like
    [val], returns [true] and the key holds again exactly the values it held
    before the add (no entry when it held none). *)
Theorem add_then_remove_restores (key val val' : jsstring) (user : IUser)
    (w : World) :
  calm w -> isValidKey key = true -> isValidValue val = true ->
  existsb (sameValue val) (default [] (stored (db w) (normalizeKey key))) = false ->
  normalizeValue val' = normalizeValue val ->
  let w1 := snd (addValueToKey key val user w) in
  let run := removeValueForKey key val' w1 in
  fst run = Returned true
  /\ stored (db (snd run)) (normalizeKey key) = stored (db w) (normalizeKey key).
Proof.
  intros C Vk Vv D Ev. cbv zeta.
  assert (isValidValue val' = true) as Vv'
    by (unfold isValidValue in *; now rewrite Ev).
  rewrite addValueToKey_run by assumption. cbv zeta.
  rewrite (calm_nextRaises w C), D.
  rewrite saveValuesForKey_run by assumption. cbv zeta.
  rewrite !calm_nextRaises by calm. cbn [snd].
  set (existing := default [] (stored (db w) (normalizeKey key))) in *.
  set (w1 := setDb _ _).
  assert (calm w1) as C1 by (unfold w1; calm).
  assert (stored (db w1) (normalizeKey key)
          = Some (existing ++ [newValue val user w])) as S1
    by (unfold w1, setDb at 1; cbn [db]; apply stored_insert).
  rewrite removeValueForKey_run by assumption. cbv zeta.
  rewrite (calm_nextRaises w1 C1), S1.
  rewrite (kept_after_add val val' user w existing Vv Ev D).
  destruct (existing ++ [newValue val user w]) as [|item items] eqn:E;
    [now destruct existing|].
  assert ((length existing =? length (item :: items))%nat = false) as L.
  { rewrite <- E, length_app. cbn [length]. apply Nat.eqb_neq. lia. }
  rewrite L.
  destruct existing as [|item' existing'] eqn:Ee.
  - rewrite !calm_nextRaises by calm. cbn [fst snd].
    split; [reflexivity|]. unfold setDb at 1. cbn [db]. rewrite stored_delete.
    unfold existing in Ee.
    destruct (stored (db w) (normalizeKey key)) as [[|]|] eqn:S;
      [now destruct (stored_not_empty _ _ S)|discriminate|reflexivity].
  - rewrite saveValuesForKey_run by assumption. cbv zeta.
    rewrite !calm_nextRaises by calm. cbn [fst snd].
    split; [reflexivity|]. unfold setDb at 1. cbn [db]. rewrite stored_single.
    unfold existing in Ee.
    destruct (stored (db w) (normalizeKey key)) as [items0|] eqn:S;
      [|discriminate].
    cbn in Ee. now rewrite Ee.
Qed.

End RoundTrip.

(** ** One reply for one message *)

Lemma silent_of {A} (m : Async A) :
  neverThrows m -> always sameOutbox m -> always staysCalm m -> silent m.
Proof. now repeat split. Qed.

Lemma silent_getEntryForKey (key : jsstring) : silent (getEntryForKey key).
Proof.
  apply silent_of; [apply neverThrows_getEntryForKey| |].
  - apply always_getEntryForKey;
      [apply sameOutbox_refl|apply sameOutbox_answered].
  - apply always_getEntryForKey;
      [apply staysCalm_refl|apply staysCalm_answered].
Qed.

Lemma silent_getValuesForKey (key : jsstring) : silent (getValuesForKey key).
Proof.
  apply silent_of.
  - apply neverThrows_bind; [apply neverThrows_getEntryForKey|].
    intros [items|]; apply neverThrows_ret.
  - apply always_getValuesForKey;
      [apply sameOutbox_refl|apply sameOutbox_trans|apply sameOutbox_answered].
  - apply always_getValuesForKey;
      [apply staysCalm_refl|apply staysCalm_trans|apply staysCalm_answered].
Qed.

Lemma silent_addValueToKey (key val : jsstring) (user : IUser) :
  silent (addValueToKey key val user).
Proof.
  apply silent_of; [apply neverThrows_addValueToKey| |].
  - apply (always_addValueToKey _ sameOutbox_refl sameOutbox_trans
             sameOutbox_answered (normalizeKey key)
             (sameOutbox_setDb (normalizeKey key)) key val user eq_refl).
  - apply (always_addValueToKey _ staysCalm_refl staysCalm_trans
             staysCalm_answered (normalizeKey key)
             (staysCalm_setDb (normalizeKey key)) key val user eq_refl).
Qed.

Lemma silent_removeKey (key : jsstring) : silent (removeKey key).
Proof.
  apply silent_of; [apply neverThrows_removeKey| |].
  - apply (always_removeKey _ sameOutbox_refl sameOutbox_trans
             sameOutbox_answered (normalizeKey key)
             (sameOutbox_setDb (normalizeKey key)) key eq_refl).
  - apply (always_removeKey _ staysCalm_refl staysCalm_trans
             staysCalm_answered (normalizeKey key)
             (staysCalm_setDb (normalizeKey key)) key eq_refl).
Qed.

Lemma silent_removeValueForKey (key val : jsstring) :
  silent (removeValueForKey key val).
Proof.
  apply silent_of; [apply neverThrows_removeValueForKey| |].
  - apply (always_removeValueForKey _ sameOutbox_refl sameOutbox_trans
             sameOutbox_answered (normalizeKey key)
             (sameOutbox_setDb (normalizeKey key)) key val eq_refl).
  - apply (always_removeValueForKey _ staysCalm_refl staysCalm_trans
             staysCalm_answered (normalizeKey key)
             (staysCalm_setDb (normalizeKey key)) key val eq_refl).
Qed.

Lemma silent_addAll (pairs : list KeyValuePair) (user : IUser) (c : Tally) :
  silent (addAll pairs user c).
Proof.
  revert c. induction pairs as [|kv pairs IH]; intros c; cbn [addAll].
  - apply silent_of; [apply neverThrows_ret| |]; intros w; reflexivity || auto.
    intros C. exact C.
  - destruct (silent_addValueToKey (pair_key kv) (pair_value kv) user)
      as (N & O & C).
    apply silent_of.
    + apply neverThrows_bind; [exact N|]. intros result. apply IH.
    + apply always_bind; [apply sameOutbox_trans|exact O|].
      intros result. apply IH.
    + apply always_bind; [apply staysCalm_trans|exact C|].
      intros result. apply IH.
Qed.

Lemma Replies_handleAddCommand (message : IMessage) :
  Replies (room message) (handleAddCommand message).
Proof.
  unfold handleAddCommand. cbv zeta.
  destruct (parseKeyValue _) as [kv|]; [|apply Replies_send; nonblank].
  apply Replies_bind; [apply silent_addValueToKey|].
  intros result. apply Replies_send. apply nonblank_addResponse.
Qed.

Lemma Replies_handleMultiAddCommand (message : IMessage) :
  Replies (room message) (handleMultiAddCommand message).
Proof.
  unfold handleMultiAddCommand. cbv zeta.
  destruct (parseMultiAdd _) as [|kv pairs]; [apply Replies_send; nonblank|].
  apply Replies_bind; [apply silent_addAll|].
  intros c. apply Replies_send. apply nonblank_summary.
Qed.

Lemma Replies_handleRemoveCommand (message : IMessage) :
  Replies (room message) (handleRemoveCommand message).
Proof.
  unfold handleRemoveCommand. cbv zeta.
  destruct (parseKeyValue _) as [kv|].
  - apply Replies_bind; [apply silent_removeValueForKey|].
    intros [|]; apply Replies_send;
      [unfold MESSAGES.VALUE_REMOVED|unfold MESSAGES.VALUE_NOT_FOUND]; nonblank.
  - destruct (negb (isValidKey _)); [apply Replies_send; nonblank|].
    apply Replies_bind; [apply silent_removeKey|].
    intros [|]; apply Replies_send;
      [unfold MESSAGES.KEY_REMOVED|unfold MESSAGES.KEY_NOT_FOUND]; nonblank.
Qed.

Lemma Replies_handleDetailsCommand (message : IMessage) :
  Replies (room message) (handleDetailsCommand message).
Proof.
  unfold handleDetailsCommand. cbv zeta.
  destruct (parseKeyValue _) as [kv|]; [|apply Replies_send; nonblank].
  apply Replies_bind; [apply silent_getEntryForKey|].
  intros [items|];
    [|apply Replies_send; unfold MESSAGES.KEY_NOT_FOUND; nonblank].
  destruct (find _ items); apply Replies_send;
    [apply nonblank_detailsText|unfold MESSAGES.VALUE_NOT_FOUND; nonblank].
Qed.

Lemma Replies_handleKeySearch (key : jsstring) (r : IRoom) :
  Replies r (handleKeySearch key r).
Proof.
  unfold handleKeySearch.
  destruct (negb (isValidKey key)); [apply Replies_send; nonblank|].
  apply Replies_bind; [apply silent_getValuesForKey|].
  intros [[|v vs]|];
    try (apply Replies_send; unfold MESSAGES.KEY_NOT_FOUND_SEARCH; nonblank).
  unfold sendValuesToUser. apply Replies_send.
  apply nonblank_formatValuesForDisplay.
Qed.

Lemma Replies_executeCommand (c : CommandType) (message : IMessage) :
  Replies (room message) (executeCommand c message).
Proof.
  destruct c; cbn [executeCommand].
  - apply Replies_handleAddCommand.
  - apply Replies_handleMultiAddCommand.
  - apply Replies_handleRemoveCommand.
  - apply Replies_handleDetailsCommand.
  - apply Replies_send. nonblank.
Qed.

Lemma Replies_neverThrows (r : IRoom) (m : Async unit) :
  Replies r m -> neverThrows m.
Proof.
  induction 1 as [t T | A m k (N & _ & _) _ IH].
  - apply neverThrows_sendMessage.
  - now apply neverThrows_bind.
Qed.

Lemma Replies_atMostOne (r : IRoom) (m : Async unit) :
  Replies r m -> always (atMostOneReply r) m.
Proof.
  induction 1 as [t T | A m k (_ & O & _) _ IH]; intros w.
  - rewrite sendMessage_run, T. cbn [negb snd].
    destruct (nextRaises w); [now left|]. right. now exists t.
  - rewrite bind_run. specialize (O w).
    destruct (m w) as [[a|e] w1]; cbn [snd] in *; [|now left].
    unfold atMostOneReply, oneReply, sameOutbox in *. rewrite <- O. apply IH.
Qed.

Lemma Replies_answers (r : IRoom) (m : Async unit) : Replies r m -> answers r m.
Proof.
  induction 1 as [t T | A m k (N & O & S) _ IH]; intros w C.
  - rewrite sendMessage_run, T, (calm_nextRaises w C). cbn [negb snd].
    now exists t.
  - rewrite bind_run. specialize (O w). specialize (S w C).
    destruct (N w) as (a & w1 & E). rewrite E in *. cbn [snd] in *.
    unfold oneReply, sameOutbox in *. rewrite <- O. now apply IH.
Qed.

Lemma shouldProcessMessage_run (message : IMessage) (w : World) :
  shouldProcessMessage message w =
  if negb (eqb (room_type (room message)) ROOM_TYPE_DIRECT) then (Returned false, w)
  else
    (match nextRaises w with
     | Some e => Thrown e
     | None =>
       Returned
         match appUser w with
         | None => false
         | Some b =>
           negb (eqb (user_id (sender message)) (user_id b))
           && truthy (trim (default [] (text message)))
         end
     end, answered GetAppUser w).
Proof.
  unfold shouldProcessMessage.
  destruct (negb (eqb _ _)); [reflexivity|].
  rewrite bind_run, getAppUser_run.
  destruct (nextRaises w); [reflexivity|].
  destruct (appUser w) as [b|]; [|reflexivity].
  destruct (eqb (user_id (sender message)) (user_id b)); [reflexivity|].
  now destruct (truthy _).
Qed.

Lemma Replies_dispatch (message : IMessage) :
  Replies (room message)
    match getCommandType (messageText message) with
    | Some commandType => executeCommand commandType message
    | None => handleKeySearch (messageText message) (room message)
    end.
Proof.
  destruct (getCommandType _);
    [apply Replies_executeCommand|apply Replies_handleKeySearch].
Qed.

(** X14. For one inbound message the bot delivers at most one message, to
    the room the message came from, and never a blank one, whatever the host
    raises. *)
Theorem replies_at_most_once (message : IMessage) :
  always (atMostOneReply (room message)) (executePostMessageSent message).
Proof.
  intros w. unfold executePostMessageSent. rewrite bind_run.
  pose proof (always_shouldProcessMessage _ sameOutbox_refl sameOutbox_trans
                sameOutbox_answered message w) as O.
  destruct (shouldProcessMessage message w) as [[[|]|e] w1]; cbn [negb snd] in *;
    try (left; exact O).
  pose proof (Replies_atMostOne _ _ (Replies_dispatch message) w1) as M.
  unfold atMostOneReply, oneReply, sameOutbox in *. now rewrite <- O.
Qed.

(** X15. When no host call raises, every message in a direct room with a
    text that is not blank, sent by another user than the bot, is answered:
    [executePostMessageSent] returns and exactly one message, not blank, is
    delivered to the room of the message. *)
Theorem every_message_is_answered (message : IMessage) (b : IUser) (w : World) :
  calm w ->
  room_type (room message) = ROOM_TYPE_DIRECT ->
  appUser w = Some b ->
  user_id (sender message) <> user_id b ->
  trim (default [] (text message)) <> [] ->
  fst (executePostMessageSent message w) = Returned tt
  /\ oneReply (room message) w (snd (executePostMessageSent message w)).
Proof.
  intros C D B S T. unfold executePostMessageSent.
  rewrite bind_run, shouldProcessMessage_run.
  rewrite D, eqb_refl, (calm_nextRaises w C), B. cbn [negb].
  replace (eqb (user_id (sender message)) (user_id b)) with false
    by (symmetry; now apply eqb_false).
  destruct (trim (default [] (text message))) as [|c s] eqn:E; [contradiction|].
  cbn [negb andb truthy].
  pose proof (Replies_dispatch message) as R.
  split.
  - destruct (Replies_neverThrows _ _ R (answered GetAppUser w))
      as ([] & w' & ->). reflexivity.
  - pose proof (Replies_answers _ _ R (answered GetAppUser w)
                  (calm_answered _ _ C)) as (t & Tt & O).
    exists t. split; [exact Tt|exact O].
Qed.

(** X16. The only exception that leaves [executePostMessageSent] is the one
    of [getAppUser]: it throws [e] exactly when the room is direct and the
    first host call, the lookup of the bot's user, raises [e]; every fault of
    the persistence or of the message creator is caught. *)
Theorem only_the_bot_lookup_escapes (message : IMessage) (w : World) (e : Error) :
  fst (executePostMessageSent message w) = Thrown e
  <-> room_type (room message) = ROOM_TYPE_DIRECT /\ nextRaises w = Some e.
Proof.
  unfold executePostMessageSent. rewrite bind_run, shouldProcessMessage_run.
  destruct (eqb (room_type (room message)) ROOM_TYPE_DIRECT) eqn:D; cbn [negb].
  2:{ apply eqb_false in D. cbn. split; [discriminate|tauto]. }
  apply eqb_true in D.
  destruct (nextRaises w) as [e'|].
  - cbn [fst]. split.
    + intros E. injection E as ->. now split.
    + intros [_ E]. now injection E as ->.
  - split; [|intros [_ E]; discriminate].
    destruct (match appUser w with Some _ => _ | None => false end);
      cbn [negb]; [|discriminate].
    destruct (Replies_neverThrows _ _ (Replies_dispatch message)
                (answered GetAppUser w)) as (a & w' & ->).
    discriminate.
Qed.

(** ** A read that raises *)

(** X17. A read of the persistence that raises is taken for an absent
    entry: [removeKey] and [removeValueForKey] return [false] and leave the
    store as it was, and a search replies with the not-found message, also
    when values are stored for the key: that message is the one text added
    to the outbox of the room, unless the host's [finish] raises as well. *)
Theorem read_fault_reads_as_absent (key : jsstring) (w : World) (e : Error) :
  nextRaises w = Some e ->
  (fst (removeKey key w) = Returned false /\ db (snd (removeKey key w)) = db w)
  /\ (forall val,
        fst (removeValueForKey key val w) = Returned false
        /\ db (snd (removeValueForKey key val w)) = db w)
  /\ (isValidKey key = true ->
      forall r,
        let w1 := answered (ReadByAssociation (normalizeKey key)) w in
        outbox w1 = outbox w
        /\ repliedWith r (MESSAGES.KEY_NOT_FOUND_SEARCH key) w1
             (handleKeySearch key r w)).
Proof.
  intros R. split; [|split].
  - destruct (isValidKey key) eqn:Vk.
    + rewrite removeKey_run by assumption. cbv zeta. rewrite R. now split.
    + unfold removeKey. rewrite Vk. now split.
  - intros val. destruct (isValidKey key) eqn:Vk.
    + destruct (isValidValue val) eqn:Vv.
      * rewrite removeValueForKey_run by assumption. cbv zeta. rewrite R.
        now split.
      * unfold removeValueForKey. rewrite Vk, Vv. now split.
    + unfold removeValueForKey. rewrite Vk. now split.
  - intros Vk r. cbv zeta. split; [reflexivity|].
    unfold handleKeySearch. rewrite Vk. cbn [negb].
    rewrite bind_run, getValuesForKey_run, getEntryForKey_run, Vk, R.
    cbn [negb option_map snd].
    apply sendMessage_repliedWith. unfold MESSAGES.KEY_NOT_FOUND_SEARCH.
    nonblank.
Qed.

(** ** The reply to an add *)

Lemma added_is_no_error (key val : jsstring) :
  MESSAGES.VALUE_ADDED key val <> MESSAGES.SAVE_ERROR.
Proof.
  intros E. apply (f_equal (take 1)) in E. vm_compute in E. discriminate E.
Qed.

Lemma duplicate_is_no_error (key : jsstring) :
  MESSAGES.DUPLICATE_VALUE key <> MESSAGES.SAVE_ERROR.
Proof.
  intros E. apply (f_equal (take 3)) in E. vm_compute in E. discriminate E.
Qed.

(** X18. When no host call raises, the reply to an [!add] whose payload
    parses says what happened to the store.  One text is added to the outbox
    of the room: the duplicate message when the key already holds a value
    that normalizes like the new one, and the store is as it was; otherwise
    the added message, with the key and value as parsed, and the key holds
    its former values followed by the new one.  The text is not the
    save-error message. *)
Theorem add_reply_tells_the_store (message : IMessage) (kv : KeyValuePair)
    (w : World) :
  parseKeyValue
    (extractCommandPayload (messageText message) (COMMANDS ADD)) = Some kv ->
  calm w ->
  let association := normalizeKey (pair_key kv) in
  let existing := default [] (stored (db w) association) in
  let run := handleAddCommand message w in
  exists t,
    fst run = Returned tt
    /\ outbox (snd run) = outbox w ++ [(room message, t)]
    /\ t <> MESSAGES.SAVE_ERROR
    /\ if existsb (sameValue (pair_value kv)) existing
       then t = MESSAGES.DUPLICATE_VALUE (pair_key kv)
            /\ db (snd run) = db w
       else t = MESSAGES.VALUE_ADDED (pair_key kv) (pair_value kv)
            /\ stored (db (snd run)) association
               = Some (existing ++ [newValue (pair_value kv) (sender message) w]).
Proof.
  intros P C. cbv zeta.
  pose proof (parseKeyValue_valid _ _ P) as [Vk Vv].
  unfold handleAddCommand. cbv zeta. rewrite P, bind_run.
  rewrite addValueToKey_run by assumption. cbv zeta.
  rewrite (calm_nextRaises w C).
  destruct (existsb _ _).
  - exists (MESSAGES.DUPLICATE_VALUE (pair_key kv)).
    destruct (sendMessage_repliedWith (room message)
                (MESSAGES.DUPLICATE_VALUE (pair_key kv))
                (answered (ReadByAssociation (normalizeKey (pair_key kv))) w))
      as (F & _ & O & D & _).
    { unfold MESSAGES.DUPLICATE_VALUE. nonblank. }
    rewrite calm_nextRaises in O by calm.
    split; [exact F|]. split; [exact O|].
    split; [apply duplicate_is_no_error|]. split; [reflexivity|exact D].
  - rewrite saveValuesForKey_run by assumption. cbv zeta.
    rewrite !calm_nextRaises by calm. cbn [addResponse added].
    exists (MESSAGES.VALUE_ADDED (pair_key kv) (pair_value kv)).
    match goal with
    | |- fst (sendMessage ?r ?t ?w1) = _ /\ _ =>
      destruct (sendMessage_repliedWith r t w1) as (F & _ & O & D & _);
        [unfold MESSAGES.VALUE_ADDED; nonblank|]
    end.
    rewrite calm_nextRaises in O by calm.
    split; [exact F|]. split; [exact O|].
    split; [apply added_is_no_error|]. split; [reflexivity|].
    rewrite D. unfold setDb at 1. cbn [db]. apply stored_insert.
Qed.

(** ** The lines of a batch *)

Lemma endsWith_last (l : jsstring) (c : char) : endsWith (l ++ [c]) [c] = true.
Proof.
  unfold endsWith. rewrite rev_app_distr. cbn. now rewrite N.eqb_refl.
Qed.

Lemma endsWith_other (l : jsstring) (c x : char) :
  x <> c -> endsWith (l ++ [x]) [c] = false.
Proof.
  intros Ne. unfold endsWith. rewrite rev_app_distr. cbn.
  destruct (N.eqb_spec x c); [contradiction|reflexivity].
Qed.

Lemma slice_drop_last (l : jsstring) (c : char) : slice (l ++ [c]) 0 (-1) = l.
Proof.
  unfold slice. rewrite length_app. cbn [length Z.ltb Z.compare].
  replace (Z.to_nat (Z.of_nat (length l + 1) + -1)) with (length l) by lia.
  cbn [Z.to_nat Nat.min]. rewrite Nat.sub_0_r, drop_0. apply take_app_length.
Qed.

(** X19. [parseMultiAdd] lets a line end with one semicolon: [cleanLine]
    drops one [';'] at the end of a line and trims what is left, leaves a
    line that does not end with [';'] as it is, and drops only the last of
    two semicolons. *)
Theorem cleanLine_drops_one_semicolon (l : jsstring) (x : char) :
  cleanLine (l ++ lit ";") = trim l
  /\ (x <> 59%N -> cleanLine (l ++ [x]) = l ++ [x])
  /\ cleanLine [] = []
  /\ cleanLine (l ++ lit ";;") = trim (l ++ lit ";").
Proof.
  unfold cleanLine. change (lit ";") with [59%N]. split; [|split; [|split]].
  - now rewrite endsWith_last, slice_drop_last.
  - intros Ne. now rewrite endsWith_other.
  - reflexivity.
  - change (lit ";;") with ([59%N] ++ [59%N]). rewrite app_assoc.
    now rewrite endsWith_last, slice_drop_last.
Qed.

(** ** The keys a batch names *)

Lemma addAll_elsewhere (pairs : list KeyValuePair) (user : IUser) (c : Tally)
    (k : jsstring) (w : World) :
  Forall (fun kv => normalizeKey (pair_key kv) <> k) pairs ->
  db (snd (addAll pairs user c w)) !! k = db w !! k.
Proof.
  revert c w. induction pairs as [|kv pairs IH]; intros c w F; [reflexivity|].
  apply Forall_cons in F as [Fk F]. cbn [addAll]. rewrite bind_run.
  pose proof (always_addValueToKey _
                (sameElsewhere_refl (normalizeKey (pair_key kv)))
                (sameElsewhere_trans (normalizeKey (pair_key kv)))
                (sameElsewhere_answered (normalizeKey (pair_key kv)))
                (normalizeKey (pair_key kv))
                (sameElsewhere_setDb (normalizeKey (pair_key kv)))
                (pair_key kv) (pair_value kv) user eq_refl w k) as E.
  destruct (addValueToKey _ _ _ w) as [[result|e] w1]; cbn [snd] in *.
  - rewrite IH by assumption. apply E. congruence.
  - apply E. congruence.
Qed.

(** X20. A batch changes the store only at the keys it names: after
    [handleMultiAddCommand], every association that is the normalized key of
    no parsed pair holds what it held before, whatever the host raises. *)
Theorem multi_add_touches_named_keys (message : IMessage) (k : jsstring)
    (w : World) :
  Forall (fun kv => normalizeKey (pair_key kv) <> k)
    (parseMultiAdd
       (extractCommandPayload (messageText message) (COMMANDS MULTI_ADD))) ->
  db (snd (handleMultiAddCommand message w)) !! k = db w !! k.
Proof.
  intros F. unfold handleMultiAddCommand. cbv zeta.
  destruct (parseMultiAdd _) as [|kv pairs] eqn:E.
  - now rewrite sendMessage_db.
  - rewrite bind_run.
    pose proof (addAll_elsewhere (kv :: pairs) (sender message) (mkTally 0 0 0)
                  k w F) as A.
    destruct (addAll _ _ _ w) as [[c|e] w1]; cbn [snd] in *; [|exact A].
    now rewrite sendMessage_db.
Qed.

End MoreProofs.

(** ** The further properties on sample inputs *)

Lemma store_operations_touch_one_key_witness :
  db (snd (addValueToKey (lit "REST") (lit "a style") alice apiWorld)) !! lit "api"
  = db apiWorld !! lit "api".
Proof.
  apply (proj1 (@store_operations_touch_one_key testRuntime (lit "REST")
                  (lit "a style") alice) apiWorld (lit "api")).
  vm_compute. discriminate.
Defined.

Lemma lookups_leave_store_witness :
  db (snd (executePostMessageSent (says directRoom alice (lit " Api ")) apiWorld))
  = db apiWorld.
Proof.
  apply (proj2 (proj2 (proj2 (@lookups_leave_store testRuntime
                                (says directRoom alice (lit " Api ")))))).
  - vm_compute. discriminate.
  - vm_compute. discriminate.
  - vm_compute. discriminate.
Defined.

Lemma values_stay_distinct_witness : everyEntry distinctValues (db apiWorld).
Proof.
  apply (proj1 (@values_stay_distinct testRuntime (lit "API") (lit "REST") alice)
               emptyWorld).
  intros k records entry L. cbn [db emptyWorld] in L.
  rewrite lookup_empty in L. discriminate L.
Defined.

Lemma values_stay_clean_witness : everyEntry cleanValues (db apiWorld).
Proof.
  apply (proj1 (@values_stay_clean testRuntime (lit "API") (lit "REST") alice)
               emptyWorld).
  intros k records entry L. cbn [db emptyWorld] in L.
  rewrite lookup_empty in L. discriminate L.
Defined.

Lemma removeKey_deletes_the_entry_witness :
  db (snd (removeKey (lit " api") apiWorld))
  = delete (normalizeKey (lit " api")) (db apiWorld).
Proof.
  refine (proj1 (proj2 (proj1 (proj2 (@removeKey_deletes_the_entry testRuntime
                                        (lit " api") apiWorld
                                        (snd (removeKey (lit " api") apiWorld))))
                              _))).
  vm_compute. reflexivity.
Defined.

Lemma addValueToKey_appends_witness :
  let run := addValueToKey (lit "api") (lit " Web API ") bot apiWorld in
  fst run = Returned (mkResult true None)
  /\ stored (db (snd run)) (lit "api")
     = Some [mkValue (lit "REST") (lit "1700000000000") (lit "alice@example.org");
             mkValue (lit "Web API") (lit "1700000000000") (lit "glossary.bot")].
Proof.
  pose proof (proj2 (@addValueToKey_appends testRuntime (lit "api")
                       (lit " Web API ") bot apiWorld)) as P.
  assert (calm apiWorld) as C by (vm_compute; reflexivity).
  specialize (P C). vm_compute in P.
  destruct (P eq_refl eq_refl) as (R & _ & S).
  vm_compute. split; [exact R|exact S].
Defined.

Lemma removeValueForKey_filters_witness :
  let run := removeValueForKey (lit "api") (lit " rest") apiWorld in
  fst run = Returned true /\ stored (db (snd run)) (lit "api") = None.
Proof.
  pose proof (proj2 (@removeValueForKey_filters testRuntime (lit "api")
                       (lit " rest") apiWorld)) as P.
  assert (calm apiWorld) as C by (vm_compute; reflexivity).
  assert (isValidKey (lit "api") = true) as Vk by (vm_compute; reflexivity).
  assert (isValidValue (lit " rest") = true) as Vv by (vm_compute; reflexivity).
  specialize (P C Vk Vv). cbv zeta in P.
  assert (stored (db apiWorld) (normalizeKey (lit "api"))
          = Some [mkValue (lit "REST") (lit "1700000000000")
                          (lit "alice@example.org")]) as S
    by (vm_compute; reflexivity).
  rewrite S in P. destruct P as [_ P].
  exact P.
Defined.

Lemma create_fault_loses_entry_witness :
  let w := withFaults [None; None; Some (lit "E11000")] apiWorld in
  let run := addValueToKey (lit "api") (lit "Web API") alice w in
  fst run = Returned (mkResult false (Some error))
  /\ db (snd run) !! normalizeKey (lit "api") = None.
Proof.
  apply (proj1 (@create_fault_loses_entry testRuntime (lit "api") (lit "Web API")
                  alice (withFaults [None; None; Some (lit "E11000")] apiWorld)
                  (lit "E11000") [] eq_refl ltac:(vm_compute; reflexivity)
                  ltac:(vm_compute; reflexivity))).
  vm_compute. reflexivity.
Defined.

Lemma store_keyed_by_normalized_key_witness :
  getEntryForKey (lit "API") apiWorld = getEntryForKey (lit " api ") apiWorld.
Proof.
  refine (proj1 (@store_keyed_by_normalized_key testRuntime (lit "API")
                   (lit " api ") _) apiWorld).
  vm_compute. reflexivity.
Defined.

Lemma getUserEmail_resolves_witness :
  getUserEmail alice = lit "alice@example.org"
  /\ getUserEmail (mkUser (lit "u3")
                     (Some [mkEmail (lit "carol@example.org") false;
                            mkEmail [] true])
                     (lit "carol") (lit "Carol"))
     = lit "carol".
Proof.
  split.
  - refine (proj1 (proj2 (getUserEmail_resolves alice))
              [mkEmail (lit "alice@example.org") true]
              (mkEmail (lit "alice@example.org") true) _ _);
      reflexivity.
  - refine (proj1 (proj2 (getUserEmail_resolves _))
              [mkEmail (lit "carol@example.org") false; mkEmail [] true]
              (mkEmail [] true) _ _);
      reflexivity.
Defined.

Lemma parseKeyValue_output_witness :
  ~ In 58%N (lit "API") /\ trim (lit "API") = lit "API".
Proof.
  assert (parseKeyValue (lit " API : REST: the style ")
          = Some (mkPair (lit "API") (lit "REST: the style"))) as P
    by (vm_compute; reflexivity).
  destruct (@parseKeyValue_output testRuntime _ _ P) as (_ & K & T & _).
  split; [exact K|exact T].
Defined.

Lemma extractCommandPayload_rest_witness :
  extractCommandPayload (COMMAND_PREFIX ++ COMMANDS ADD ++ lit "endum  ")
                        (COMMANDS ADD)
  = trim (lit "endum  ").
Proof.
  apply (proj2 (@extractCommandPayload_rest testRuntime testRuntime_prefix
                  ADD [] (lit "endum  ") [])).
Defined.

Lemma add_then_remove_restores_witness :
  let w1 := snd (addValueToKey (lit "api") (lit "Web API") alice apiWorld) in
  let run := removeValueForKey (lit "api") (lit " web api ") w1 in
  fst run = Returned true
  /\ stored (db (snd run)) (normalizeKey (lit "api"))
     = stored (db apiWorld) (normalizeKey (lit "api")).
Proof.
  apply (@add_then_remove_restores testRuntime testRuntime_empty (lit "api")
           (lit "Web API") (lit " web api ") alice apiWorld);
    vm_compute; reflexivity.
Defined.

Lemma replies_at_most_once_witness :
  atMostOneReply directRoom apiWorld
    (snd (executePostMessageSent (says directRoom alice (lit "!remove api")) apiWorld)).
Proof.
  apply (@replies_at_most_once testRuntime (says directRoom alice (lit "!remove api"))
           apiWorld).
Defined.

Lemma every_message_is_answered_witness :
  let run := executePostMessageSent (says directRoom alice (lit "!help")) emptyWorld in
  fst run = Returned tt /\ oneReply directRoom emptyWorld (snd run).
Proof.
  apply (@every_message_is_answered testRuntime
           (says directRoom alice (lit "!help")) bot emptyWorld).
  - vm_compute. reflexivity.
  - vm_compute. reflexivity.
  - vm_compute. reflexivity.
  - vm_compute. discriminate.
  - vm_compute. discriminate.
Defined.

Lemma only_the_bot_lookup_escapes_witness :
  fst (executePostMessageSent (says directRoom alice (lit "api"))
         (withFaults [Some (lit "no app user")] apiWorld))
  = Thrown (lit "no app user").
Proof.
  apply (proj2 (@only_the_bot_lookup_escapes testRuntime
                  (says directRoom alice (lit "api"))
                  (withFaults [Some (lit "no app user")] apiWorld)
                  (lit "no app user"))).
  split; vm_compute; reflexivity.
Defined.

Lemma read_fault_reads_as_absent_witness :
  let w := withFaults [Some (lit "connection reset")] apiWorld in
  stored (db w) (lit "api") <> None
  /\ outbox (snd (handleKeySearch (lit "api") directRoom w))
     = outbox w ++ [(directRoom, MESSAGES.KEY_NOT_FOUND_SEARCH (lit "api"))].
Proof.
  split; [vm_compute; discriminate|].
  refine (proj1 (proj2 (proj2 (proj2
            (proj2 (proj2 (@read_fault_reads_as_absent testRuntime (lit "api")
                             (withFaults [Some (lit "connection reset")] apiWorld)
                             (lit "connection reset") _)) _ directRoom))))).
  - vm_compute. reflexivity.
  - vm_compute. reflexivity.
Defined.

Lemma add_reply_tells_the_store_witness :
  let message := says directRoom alice (lit "!add API: rest ") in
  let run := handleAddCommand message apiWorld in
  outbox (snd run)
  = outbox apiWorld ++ [(directRoom, MESSAGES.DUPLICATE_VALUE (lit "API"))]
  /\ db (snd run) = db apiWorld.
Proof.
  assert (parseKeyValue
            (extractCommandPayload
               (messageText (says directRoom alice (lit "!add API: rest ")))
               (COMMANDS ADD))
          = Some (mkPair (lit "API") (lit "rest"))) as P
    by (vm_compute; reflexivity).
  assert (calm apiWorld) as C by (vm_compute; reflexivity).
  destruct (@add_reply_tells_the_store testRuntime _ _ apiWorld P C)
    as (t & _ & O & _ & T).
  assert (existsb (sameValue (lit "rest"))
            (default [] (stored (db apiWorld) (normalizeKey (lit "API"))))
          = true) as D by (vm_compute; reflexivity).
  cbn [pair_key pair_value] in T. rewrite D in T. destruct T as [-> S].
  split; [exact O|exact S].
Defined.

Lemma cleanLine_drops_one_semicolon_witness :
  cleanLine (lit "API:REST ;") = lit "API:REST".
Proof.
  apply (proj1 (cleanLine_drops_one_semicolon (lit "API:REST ") 0%N)).
Defined.

Lemma multi_add_touches_named_keys_witness :
  db (snd (handleMultiAddCommand (says directRoom alice batch) apiWorld))
  !! lit "api"
  = db apiWorld !! lit "api".
Proof.
  apply (@multi_add_touches_named_keys testRuntime (says directRoom alice batch)
           (lit "api") apiWorld).
  vm_compute. repeat constructor; discriminate.
Defined.
